(** * imdb_ner: the data preparation and the result table of get_prepare_data.py

    The development embeds the two data transformations of
    [get_prepare_data.py]:

    - [mit_list2df] and [prepare_data], which turn the lines of the MIT movie
      corpus (one "label token" pair per line, a blank line between
      sentences) into a table of (sentence_id, labels, words) rows;
    - [test], which gathers the predictions of the three models in one long
      table and pivots it into one row per (world, sentence) pair.

    Both lean on pandas.  The calls the program makes ([read_csv] with
    [delim_whitespace=True, header=None, names=...], boolean filtering with
    [notnull], [unique], [concat], [pivot], [fillna], [reset_index],
    [sort_values]) are modelled in the module [Pandas], each with the part of
    its behaviour the program can reach. *)

From Stdlib Require Import String Ascii List Arith ZArith Lia Bool.
From Stdlib Require Import Permutation Sorted DecimalString DecimalNat DecimalFacts.
Import ListNotations.

Open Scope string_scope.
Open Scope list_scope.

(** ** Exceptions and results *)

(** The exceptions the two functions can raise. [ParserError] is the C
    tokenizer's "Expected [expected] fields in line .., saw [saw]" (the line
    number of the message is left out); [ValueError] carries the message;
    [ModelError] stands for whatever loading a model or predicting raises;
    [Exception] is the wrapper of [raise Exception(ex)]. *)
Inductive exn : Type :=
| KeyError (key : string)
| ParserError (expected saw : nat)
| ValueError (msg : string)
| ModelError (msg : string)
| Exception (ex : exn).

Inductive result (A : Type) : Type :=
| Ok (a : A)
| Raise (e : exn).

Arguments Ok {A} a.
Arguments Raise {A} e.

Definition bind {A B : Type} (c : result A) (k : A -> result B) : result B :=
  match c with
  | Ok a => k a
  | Raise e => Raise e
  end.

Notation "x <- c ;; k" := (bind c (fun x => k))
  (at level 61, c at next level, right associativity).

Definition is_ok {A : Type} (c : result A) : bool :=
  match c with Ok _ => true | Raise _ => false end.

(** ** Characters and Python's [str] on a non-negative integer *)

Definition LF : ascii := "010"%char.
Definition CR : ascii := "013"%char.
Definition TAB : ascii := "009"%char.
Definition SPACE : ascii := " "%char.

(** The one-character strings ['\n'] and ['\t']. *)
Definition nl : string := String LF EmptyString.
Definition tab : string := String TAB EmptyString.

(** [str(n)] for [n >= 0]: the decimal numeral, "0" for zero. *)
Definition str (n : nat) : string := NilEmpty.string_of_uint (Nat.to_uint n).

(** [''.join(l)] *)
Definition join (l : list string) : string := String.concat "" l.

(** ** The pandas calls of the program *)

Module Pandas.

(** A cell of a table: a string, an integer, or the missing value. *)
Inductive value : Type :=
| VStr (s : string)
| VInt (z : Z)
| NaN.

Definition value_eq_dec (a b : value) : {a = b} + {a <> b}.
Proof. decide equality; [apply string_dec | apply Z.eq_dec]. Defined.

Definition notnull (v : value) : bool :=
  match v with NaN => false | _ => true end.

(** *** [read_csv(io.StringIO(text), delim_whitespace=True, header=None, names=...)]

    The C tokenizer in whitespace mode: a record ends at a line feed or a
    carriage return; inside a record, fields are the maximal runs of
    characters other than space and tab (leading and trailing blanks make no
    field); a record with no field is a blank line and is skipped
    ([skip_blank_lines] is on by default).  Quoted fields are not modelled:
    the statements below are about lines without the double quote. *)

Definition is_whitespace (c : ascii) : bool :=
  Ascii.eqb c SPACE || Ascii.eqb c TAB.

Definition is_terminator (c : ascii) : bool :=
  Ascii.eqb c LF || Ascii.eqb c CR.

(** The pieces of [s] between the characters that satisfy [p]. *)
Fixpoint split_on (p : ascii -> bool) (s : string) : list string :=
  match s with
  | EmptyString => [EmptyString]
  | String c s' =>
      if p c then EmptyString :: split_on p s'
      else match split_on p s' with
           | [] => [String c EmptyString]
           | w :: ws => String c w :: ws
           end
  end.

Definition nonempty (s : string) : bool := negb (String.eqb s "").

Definition fields (line : string) : list string :=
  filter nonempty (split_on is_whitespace line).

Definition has_field (row : list string) : bool :=
  match row with [] => false | _ :: _ => true end.

Definition tokenize_rows (text : string) : list (list string) :=
  filter has_field (map fields (split_on is_terminator text)).

(** With [names] given and [header=None] the tokenizer expects
    [max (fields of the first record) (number of names)] fields; a later
    record with more fields is an error ([on_bad_lines='error'] is the
    default), one with fewer is completed with empty fields. *)
Fixpoint check_fields (expected : nat) (rows : list (list string)) : result unit :=
  match rows with
  | [] => Ok tt
  | row :: rest =>
      if Nat.ltb expected (length row) then Raise (ParserError expected (length row))
      else check_fields expected rest
  end.

Definition pad (expected : nat) (row : list string) : list string :=
  row ++ repeat EmptyString (expected - length row).

(** The strings read as the missing value ([keep_default_na=True]);
    "None" is in the list since pandas 2.0. *)
Definition STR_NA_VALUES : list string :=
  [ ""; "#N/A"; "#N/A N/A"; "#NA"; "-1.#IND"; "-1.#QNAN"; "-NaN"; "-nan";
    "1.#IND"; "1.#QNAN"; "<NA>"; "N/A"; "NA"; "NULL"; "NaN"; "None"; "n/a";
    "nan"; "null" ].

Definition is_na (f : string) : bool := existsb (String.eqb f) STR_NA_VALUES.

(** Cells keep the text of their field: the per-column type inference of
    pandas, which shows a column of numerals as integers, is not modelled. *)
Definition convert (f : string) : value := if is_na f then NaN else VStr f.

(** The rows of the table, each with one cell per name.  When the first
    record has more fields than there are names, the leading columns in
    excess become the index, and the names label the last columns. *)
Definition read_csv (text : string) (names : nat) : result (list (list value)) :=
  match tokenize_rows text with
  | [] => Ok []
  | first :: rest =>
      let expected := Nat.max (length first) names in
      _ <- check_fields expected rest ;;
      let leading_cols := expected - names in
      Ok (map (fun row => map convert (skipn leading_cols (pad expected row)))
              (first :: rest))
  end.

(** *** [Series.unique()]: the distinct values in order of first appearance *)
Fixpoint unique_from {A : Type} (eq_dec : forall a b : A, {a = b} + {a <> b})
    (seen : list A) (l : list A) : list A :=
  match l with
  | [] => []
  | v :: rest =>
      if in_dec eq_dec v seen then unique_from eq_dec seen rest
      else v :: unique_from eq_dec (v :: seen) rest
  end.

Definition unique (l : list value) : list value := unique_from value_eq_dec [] l.

(** *** [pd.concat(objs, ignore_index=True)]: the rows of the frames one
    after the other; an empty list of frames is refused. *)
Definition concat {A : Type} (objs : list (list A)) : result (list A) :=
  match objs with
  | [] => Raise (ValueError "No objects to concatenate")
  | _ :: _ => Ok (List.concat objs)
  end.

(** *** Sorting.  The levels of an index are sorted when a table is
    reshaped, and [sort_values] sorts rows by a column.  Both are modelled
    by an insertion sort, which leaves the elements its order cannot tell
    apart in the order they had.  In an index all elements are distinct and
    the result does not depend on that.  For [sort_values] the default
    [kind='quicksort'] promises no order among rows with equal keys: what is
    stated below on the order of such rows holds for a sort that keeps them
    in place. *)
Section Sort.
Context {A : Type} (leb : A -> A -> bool).

Fixpoint insert (x : A) (l : list A) : list A :=
  match l with
  | [] => [x]
  | h :: t => if leb x h then x :: h :: t else h :: insert x t
  end.

Definition sort (l : list A) : list A := fold_right insert [] l.
End Sort.

End Pandas.

Import Pandas.

(** ** The corpus: [mit_list2df] and [prepare_data] *)

Module Corpus.

(** The state of the loop of [mit_list2df]: the counter [sentense_id] and
    the list [new_df_list] built so far. *)
Definition mit_step (st : nat * list string) (line : string) : nat * list string :=
  let (sentense_id, new_df_list) := st in
  if String.eqb line nl then (S sentense_id, new_df_list)
  else (sentense_id, new_df_list ++ [(str sentense_id ++ tab ++ line)%string]).

Definition mit_list2df (df_list : list string) : list string :=
  snd (fold_left mit_step df_list (0, [])).

(** A row of [df_train] and [df_test]. *)
Record token_row : Type := mk_token_row {
  sentence_id : value;
  labels : value;
  words : value
}.

Definition row_of_cells (cells : list value) : token_row :=
  {| sentence_id := nth 0 cells NaN;
     labels := nth 1 cells NaN;
     words := nth 2 cells NaN |}.

(** [mit_list2df], [read_csv] with the three names and the filter
    [df[df['words'].notnull()]], as [prepare_data] does for each split. *)
Definition load_split (df_list : list string) : result (list token_row) :=
  let tmp_list := mit_list2df df_list in
  cells <- read_csv (join tmp_list) 3 ;;
  let df := map row_of_cells cells in
  Ok (filter (fun r => notnull (words r)) df).

(** [files_dic[key]] *)
Fixpoint getitem (files_dic : list (string * list string)) (key : string)
  : result (list string) :=
  match files_dic with
  | [] => Raise (KeyError key)
  | (k, v) :: rest => if String.eqb k key then Ok v else getitem rest key
  end.

(** [prepare_data], from the dictionary [open_mit_files] returns. *)
Definition prepare_data (files_dic : list (string * list string))
  : result (list token_row * list token_row * list value) :=
  train_lines <- getitem files_dic "engtrain" ;;
  df_train <- load_split train_lines ;;
  test_lines <- getitem files_dic "engtest" ;;
  df_test <- load_split test_lines ;;
  let label := unique (map labels df_train) in
  Ok (df_train, df_test, label).

End Corpus.

Import Corpus.

(** ** The result table: [test] *)

Module Aggregator.

(** The first component of [NERModel.predict(sentences_list)]: for each
    sentence the list of its one-entry dictionaries [{word: label}], here
    pairs. *)
Definition prediction : Type := list (list (string * string)).

(** A row of the long table [df]. *)
Record long_row : Type := mk_long_row {
  world : string;
  label : string;
  sentence : nat;
  model : string
}.

Definition models : list string := ["bert"; "distilbert"; "roberta"].

(** [df_p] for sentence [i] of model [m]. *)
Definition df_p (m : string) (i : nat) (p : list (string * string)) : list long_row :=
  let kl := map fst p in
  let vl := map snd p in
  map (fun kv => {| world := fst kv; label := snd kv; sentence := i; model := m |})
      (combine kl vl).

(** The inner loop [for i in range(len(prediction))]. *)
Definition frames_of (m : string) (pred : prediction) : list (list long_row) :=
  map (fun i => df_p m i (nth i pred [])) (seq 0 (length pred)).

(** The outer loop over the models; a failure to load a model or to predict
    is raised again as [Exception(ex)]. *)
Fixpoint collect (predict : string -> list string -> result prediction)
    (sentences_list : list string) (ms : list string)
    (sentence_li : list (list long_row)) : result (list (list long_row)) :=
  match ms with
  | [] => Ok sentence_li
  | m :: rest =>
      match predict m sentences_list with
      | Raise ex => Raise (Exception ex)
      | Ok pred => collect predict sentences_list rest (sentence_li ++ frames_of m pred)
      end
  end.

(** *** [df.pivot(index=['world', 'sentence'], columns='model')] *)

Definition key : Type := (string * nat)%type.

Definition key_eq_dec (a b : key) : {a = b} + {a <> b}.
Proof. decide equality; [apply Nat.eq_dec | apply string_dec]. Defined.

Definition entry_key (r : long_row) : key := (world r, sentence r).

Definition entry_eq_dec (a b : key * string) : {a = b} + {a <> b}.
Proof. decide equality; [apply string_dec | apply key_eq_dec]. Defined.

(** The order of the index after the reshape: by [world], then by
    [sentence]. *)
Definition key_leb (a b : key) : bool :=
  match String.compare (fst a) (fst b) with
  | Lt => true
  | Eq => Nat.leb (snd a) (snd b)
  | Gt => false
  end.

Fixpoint has_dup {A : Type} (eq_dec : forall a b : A, {a = b} + {a <> b})
    (l : list A) : bool :=
  match l with
  | [] => false
  | x :: t => if in_dec eq_dec x t then true else has_dup eq_dec t
  end.

(** The labels a model gave for a key. *)
Definition entries (df : list long_row) (k : key) (m : string) : list string :=
  map label
    (filter (fun r => if key_eq_dec (entry_key r) k
                      then String.eqb (model r) m else false) df).

Definition cell (df : list long_row) (k : key) (m : string) : value :=
  match entries df k m with
  | [] => NaN
  | l :: _ => VStr l
  end.

(** The reshaped table: the index of (world, sentence) pairs, the columns
    ('label', model), and one line of cells per index entry. *)
Record pivoted : Type := mk_pivoted {
  p_index : list key;
  p_columns : list string;
  p_data : list (list value)
}.

(** Two rows with the same world, sentence and model make the reshape fail.
    Otherwise the index holds the distinct pairs in sorted order, the
    columns the distinct models in sorted order, and a cell the label of its
    row of [df], or the missing value where there is none. *)
Definition pivot (df : list long_row) : result pivoted :=
  if has_dup entry_eq_dec (map (fun r => (entry_key r, model r)) df)
  then Raise (ValueError "Index contains duplicate entries, cannot reshape")
  else
    let index := sort key_leb (nodup key_eq_dec (map entry_key df)) in
    let columns := sort String.leb (nodup string_dec (map model df)) in
    Ok {| p_index := index;
          p_columns := columns;
          p_data := map (fun k => map (cell df k) columns) index |}.

(** [fillna(0, inplace=True)] *)
Definition fill (z : Z) (v : value) : value :=
  match v with NaN => VInt z | _ => v end.

Definition fillna (z : Z) (t : pivoted) : pivoted :=
  {| p_index := p_index t;
     p_columns := p_columns t;
     p_data := map (map (fill z)) (p_data t) |}.

(** A row of the table once the index has become the columns [world] and
    [sentence]. *)
Record wide_row : Type := mk_wide_row {
  r_world : string;
  r_sentence : nat;
  r_label : list value
}.

Record DataFrame : Type := mk_DataFrame {
  columns : list string;
  rows : list wide_row
}.

(** [reset_index(inplace=True)] *)
Definition reset_index (t : pivoted) : DataFrame :=
  {| columns := p_columns t;
     rows := map (fun kc => {| r_world := fst (fst kc);
                               r_sentence := snd (fst kc);
                               r_label := snd kc |})
                 (combine (p_index t) (p_data t)) |}.

(** [sort_values(by=['sentence'], inplace=True)] *)
Definition sort_values (t : DataFrame) : DataFrame :=
  {| columns := columns t;
     rows := sort (fun a b => Nat.leb (r_sentence a) (r_sentence b)) (rows t) |}.

(** [reset_index(drop=True, inplace=True)]: the rows are numbered again
    from 0; the table keeps no numbering here. *)
Definition reset_index_drop (t : DataFrame) : DataFrame := t.

(** The body of [test] for a list of models. *)
Definition test_with (ms : list string)
    (predict : string -> list string -> result prediction)
    (sentences_list : list string) : result DataFrame :=
  sentence_li <- collect predict sentences_list ms [] ;;
  df <- concat sentence_li ;;
  new_df <- pivot df ;;
  let new_df := fillna 0 new_df in
  let new_df := reset_index new_df in
  let new_df := sort_values new_df in
  let new_df := reset_index_drop new_df in
  Ok new_df.

Definition test (predict : string -> list string -> result prediction)
    (sentences_list : list string) : result DataFrame :=
  test_with models predict sentences_list.

End Aggregator.

Import Aggregator.

(** ** The statements' vocabulary *)

Module Spec.

Fixpoint string_forall (p : ascii -> bool) (s : string) : bool :=
  match s with
  | EmptyString => true
  | String c s' => p c && string_forall p s'
  end.

Definition is_digit (c : ascii) : bool :=
  existsb (Ascii.eqb c)
    ["0"; "1"; "2"; "3"; "4"; "5"; "6"; "7"; "8"; "9"]%char.

(** What [readlines()] gives: a line is its body followed by the line
    feed.  A body is [clean] when it holds no line feed, no carriage return
    and no double quote. *)
Definition ln (body : string) : string := (body ++ nl)%string.



(** The delimiter test of [mit_list2df], and the number of delimiter
    lines of a list of lines. *)
Definition is_delimiter (line : string) : bool := String.eqb line nl.

Definition delimiter_count (lines : list string) : nat :=
  length (filter is_delimiter lines).

(** The content lines of a list with the value the counter has when each
    is met, for a counter that starts at [n] and a delimiter test [delim]. *)
Fixpoint tag_lines (delim : string -> bool) (n : nat) (l : list string)
  : list (nat * string) :=
  match l with
  | [] => []
  | x :: rest =>
      if delim x then tag_lines delim (S n) rest
      else (n, x) :: tag_lines delim n rest
  end.

(** The text [mit_list2df] makes of a tagged line. *)
Definition render (t : nat * string) : string :=
  (str (fst t) ++ tab ++ snd t)%string.













(** *** The result table *)


(** The prediction a model returns (no sentence when the call raises). *)
Definition prediction_of (predict : string -> list string -> result prediction)
    (sentences_list : list string) (m : string) : prediction :=
  match predict m sentences_list with
  | Ok pred => pred
  | Raise _ => []
  end.

(** The prediction [pred] holds the word [fst k] with the label [lab] in
    its sentence number [snd k]. *)
Definition emits (pred : prediction) (k : key) (lab : string) : Prop :=
  In (fst k, lab) (nth (snd k) pred []).

(** The (word, sentence) pairs of a prediction, in the order of emission. *)
Definition emitted_keys (pred : prediction) : list key :=
  flat_map (fun i => map (fun p => (fst p, i)) (nth i pred []))
           (seq 0 (length pred)).

(** The rows of the long table that come from one model. *)
Definition rows_of (m : string) (pred : prediction) : list long_row :=
  List.concat (frames_of m pred).

(** The long table [df] of [test]. *)
Definition long_table (ms : list string)
    (predict : string -> list string -> result prediction)
    (sentences_list : list string) : list long_row :=
  flat_map (fun m => rows_of m (prediction_of predict sentences_list m)) ms.

Definition row_key (r : wide_row) : key := (r_world r, r_sentence r).

(** The row of the result for the key [k], from the long table [L]. *)
Definition wide_of (L : list long_row) (cols : list string) (k : key) : wide_row :=
  {| r_world := fst k;
     r_sentence := snd k;
     r_label := map (fun m => fill 0 (cell L k m)) cols |}.

Definition by_sentence (a b : wide_row) : bool :=
  Nat.leb (r_sentence a) (r_sentence b).

(** The index and the columns of the table reshaped from [L]. *)
Definition index_of (L : list long_row) : list key :=
  sort key_leb (nodup key_eq_dec (map entry_key L)).

Definition columns_of (L : list long_row) : list string :=
  sort String.leb (nodup string_dec (map model L)).

(** The (word, sentence, model) triple of a row of the long table. *)
Definition entry (r : long_row) : key * string := (entry_key r, model r).

(** The cell of a row in the column ('label', m). *)
Fixpoint lookup (cols : list string) (vals : list value) (m : string) : option value :=
  match cols, vals with
  | c :: cols', v :: vals' => if String.eqb c m then Some v else lookup cols' vals' m
  | _, _ => None
  end.

Definition label_of (df : DataFrame) (r : wide_row) (m : string) : option value :=
  lookup (columns df) (r_label r) m.


(** The strict order of the index of the reshaped table. *)
Definition key_lt (a b : key) : Prop :=
  String.compare (fst a) (fst b) = Lt \/ (fst a = fst b /\ snd a < snd b).


(** *** Example predictions *)

(** Every model reads "b" and then "a" in the one sentence. *)
Definition predict_b_a (m : string) (sentences_list : list string) : result prediction :=
  Ok [[("b", "O"); ("a", "O")]].

(** Every model reads "a" and then "b" in the one sentence. *)
Definition predict_a_b (m : string) (sentences_list : list string) : result prediction :=
  Ok [[("a", "O"); ("b", "O")]].

(** Every model reads the word "the" twice in the one sentence. *)
Definition predict_repeat (m : string) (sentences_list : list string) : result prediction :=
  Ok [[("the", "O"); ("the", "O")]].

(** distilbert reads nothing in the one sentence, the others one word. *)
Definition predict_one_silent (m : string) (sentences_list : list string)
  : result prediction :=
  if String.eqb m "distilbert" then Ok [[]] else Ok [[("hi", "O")]].

(** Every model returns predictions for two sentences. *)
Definition predict_two_sentences (m : string) (sentences_list : list string)
  : result prediction :=
  Ok [[("a", "O")]; [("b", "B")]].


(** bert and roberta read "hi", with different labels. *)
Definition predict_hi (m : string) (sentences_list : list string) : result prediction :=
  if String.eqb m "bert" then Ok [[("hi", "O")]]
  else if String.eqb m "roberta" then Ok [[("hi", "B-PER")]]
  else Ok [[]].

End Spec.

Import Spec.

(** ** The files of the corpus: [check_mit_exists] and [open_mit_files] *)

Module Files.

(** *** The functions of [os.path] (POSIX) and of [str] the program calls *)

Definition SLASH : ascii := "/"%char.
Definition DOT : ascii := "."%char.

(** [s.startswith(prefix)] *)
Definition startswith (prefix s : string) : bool := String.prefix prefix s.

(** [s.endswith(suffix)] *)
Fixpoint endswith (suffix s : string) : bool :=
  String.eqb s suffix ||
  match s with
  | EmptyString => false
  | String _ s' => endswith suffix s'
  end.

(** What is before and after the last [c] of [s], when there is one
    ([s.rfind(c)] and the two slices around it). *)
Fixpoint rsplit (c : ascii) (s : string) : option (string * string) :=
  match s with
  | EmptyString => None
  | String x s' =>
      match rsplit c s' with
      | Some (a, b) => Some (String x a, b)
      | None => if Ascii.eqb x c then Some (EmptyString, s') else None
      end
  end.

(** [path.join(a, b)] *)
Definition path_join (a b : string) : string :=
  if startswith "/" b then b
  else if String.eqb a "" || endswith "/" a then (a ++ b)%string
  else (a ++ "/" ++ b)%string.

(** [path.basename(p)]: what follows the last slash. *)
Definition basename (p : string) : string :=
  match rsplit SLASH p with
  | Some (_, b) => b
  | None => p
  end.

(** [path.splitext(p)]: the extension starts at the last dot of the last
    component, unless only dots come before it in this component. *)
Definition splitext (p : string) : string * string :=
  let (dir, base) :=
    match rsplit SLASH p with
    | Some (d, b) => ((d ++ "/")%string, b)
    | None => (EmptyString, p)
    end in
  match rsplit DOT base with
  | Some (stem, ext) =>
      if string_forall (fun c => Ascii.eqb c DOT) stem then (p, EmptyString)
      else ((dir ++ stem)%string, String DOT ext)
  | None => (p, EmptyString)
  end.

(** [f.readlines()] on the text of a file opened in text mode (its line
    ends already translated to the line feed): the lines with their line
    feed, and what follows the last line feed when it is not empty. *)
Fixpoint readlines (text : string) : list string :=
  match text with
  | EmptyString => []
  | String c rest =>
      if Ascii.eqb c LF then nl :: readlines rest
      else match readlines rest with
           | [] => [String c EmptyString]
           | line :: lines => String c line :: lines
           end
  end.

(** *** The file system *)

(** What [listdir] and [open] raise: FileNotFoundError or something else. *)
Inductive os_error : Type :=
| FileNotFoundError (msg : string)
| OtherError (msg : string).

(** The three calls the program makes: [listdir(p)], [path.isfile(p)], and
    [open(p, 'r')] followed by reading the whole text. *)
Record filesystem : Type := mk_filesystem {
  listdir : string -> os_error + list string;
  isfile : string -> bool;
  read_text : string -> os_error + string
}.

Definition _mit_path : string := "data/mit_movie_corpus".

(** The loop of [check_mit_exists]. *)
Fixpoint check_files (fs : filesystem) (mit_files : list string) : bool :=
  match mit_files with
  | [] => true
  | f :: rest =>
      let filename := path_join _mit_path f in
      if negb (isfile fs filename) then false else check_files fs rest
  end.

Definition check_mit_exists (fs : filesystem) : bool :=
  check_files fs ["engtrain.bio"; "engtest.bio"].

(** How [open_mit_files] ends: with its dictionary, with the
    [FileNotFoundError(ex)] or the [Exception(ex)] it raises, or with an
    exception of [listdir] it does not catch. *)
Inductive loaded : Type :=
| Loaded (files_dic : list (string * list string))
| RaiseFileNotFoundError (ex : os_error)
| RaiseException (ex : os_error)
| Uncaught (ex : os_error).

(** [files_dic.update({key: value})]: the value of a key the dictionary has
    is replaced, a new key comes last. *)
Fixpoint update (files_dic : list (string * list string)) (key : string)
    (value : list string) : list (string * list string) :=
  match files_dic with
  | [] => [(key, value)]
  | (k, v) :: rest =>
      if String.eqb k key then (key, value) :: rest
      else (k, v) :: update rest key value
  end.

(** The key of a file in the dictionary. *)
Definition key_of (b_f : string) : string := fst (splitext (basename b_f)).

(** The loop over [only_files]. *)
Fixpoint load_files (fs : filesystem) (only_files : list string)
    (files_dic : list (string * list string)) : loaded :=
  match only_files with
  | [] => Loaded files_dic
  | b_f :: rest =>
      match read_text fs b_f with
      | inl ex => RaiseException ex
      | inr text => load_files fs rest (update files_dic (key_of b_f) (readlines text))
      end
  end.

Definition open_mit_files (fs : filesystem) : loaded :=
  match listdir fs _mit_path with
  | inl (FileNotFoundError msg) => RaiseFileNotFoundError (FileNotFoundError msg)
  | inl ex => Uncaught ex
  | inr names =>
      let only_files :=
        map (path_join _mit_path)
            (filter (fun f => isfile fs (path_join _mit_path f) && endswith ".bio" f)
                    names) in
      load_files fs only_files []
  end.

End Files.

Import Files.

(** ** More vocabulary, for the properties beside the claims *)

Module SpecMore.

(** The table [test] builds from the long table [L]. *)
Definition table_of (L : list long_row) : DataFrame :=
  {| columns := columns_of L;
     rows := sort by_sentence (map (wide_of L (columns_of L)) (index_of L)) |}.

(** A prediction with at least one (word, label) pair. *)
Definition has_prediction (pred : prediction) : bool :=
  existsb (fun p => match p with [] => false | _ :: _ => true end) pred.

(** The number of (word, label) pairs of a prediction. *)
Definition pair_count (pred : prediction) : nat :=
  list_sum (map (@length (string * string)) pred).

(** The strict order of the strings. *)
Definition string_lt (a b : string) : Prop := String.compare a b = Lt.

(** *** The corpus *)

(** What follows the first tab of a line (nothing when there is no tab). *)
Fixpoint untag (s : string) : string :=
  match s with
  | EmptyString => EmptyString
  | String c s' => if Ascii.eqb c TAB then s' else untag s'
  end.



(** *** The files *)

(** A string without line feed. *)
Definition no_line_feed (s : string) : bool :=
  string_forall (fun c => negb (Ascii.eqb c LF)) s.

(** A file name as [listdir] gives them: without slash. *)
Definition no_slash (s : string) : bool :=
  string_forall (fun c => negb (Ascii.eqb c SLASH)) s.

Definition no_dot (s : string) : bool :=
  string_forall (fun c => negb (Ascii.eqb c DOT)) s.

Definition only_dots (s : string) : bool :=
  string_forall (fun c => Ascii.eqb c DOT) s.

(** A directory with the two files of the corpus, a text file and a
    directory named old.bio. *)
Definition example_fs : filesystem :=
  {| listdir := fun p =>
       if String.eqb p _mit_path
       then inr ["engtest.bio"; "readme.txt"; "engtrain.bio"; "old.bio"]
       else inl (FileNotFoundError p);
     isfile := fun p => negb (String.eqb p "data/mit_movie_corpus/old.bio");
     read_text := fun p =>
       if String.eqb p "data/mit_movie_corpus/engtrain.bio"
       then inr ("O a" ++ nl ++ "B-X b" ++ nl ++ nl ++ "O c" ++ nl)%string
       else if String.eqb p "data/mit_movie_corpus/engtest.bio"
       then inr ("O d" ++ nl)%string
       else inl (OtherError p) |}.

(** The same directory with one more file, notes.bio, that cannot be
    read. *)
Definition broken_fs : filesystem :=
  {| listdir := fun p =>
       if String.eqb p _mit_path
       then inr ["engtest.bio"; "notes.bio"; "engtrain.bio"]
       else inl (FileNotFoundError p);
     isfile := fun p => true;
     read_text := fun p =>
       if String.eqb p "data/mit_movie_corpus/notes.bio"
       then inl (OtherError "Permission denied")
       else inr ("O d" ++ nl)%string |}.

(** The files [open_mit_files] opens: the regular files of the directory
    whose name ends in .bio. *)
Definition selected (fs : filesystem) (f : string) : bool :=
  isfile fs (path_join _mit_path f) && endswith ".bio" f.

End SpecMore.

Import SpecMore.

(** ** Facts about strings, [str] and the tokenizer *)

Section StringFacts.

Lemma append_nil_r (s : string) : (s ++ "")%string = s.
Proof. induction s as [|c s IH]; simpl; [reflexivity | now rewrite IH]. Qed.

Lemma append_assoc (a b c : string) :
  ((a ++ b) ++ c)%string = (a ++ (b ++ c))%string.
Proof. induction a as [|x a IH]; simpl; [reflexivity | now rewrite IH]. Qed.

Lemma join_cons (x : string) (xs : list string) :
  join (x :: xs) = (x ++ join xs)%string.
Proof.
  unfold join. destruct xs as [|y ys]; simpl.
  - now rewrite append_nil_r.
  - reflexivity.
Qed.

Lemma string_forall_app (p : ascii -> bool) (a b : string) :
  string_forall p (a ++ b) = string_forall p a && string_forall p b.
Proof.
  induction a as [|c a IH]; simpl; [reflexivity|].
  now rewrite IH, andb_assoc.
Qed.


(** A text without separator is one piece; a separator ends the piece
    before it. *)
Lemma split_on_none (p : ascii -> bool) (a : string) :
  string_forall (fun c => negb (p c)) a = true -> split_on p a = [a].
Proof.
  induction a as [|c a IH]; simpl; [reflexivity|].
  intros H. apply andb_true_iff in H as [Hc Ha].
  apply negb_true_iff in Hc. rewrite Hc, (IH Ha). reflexivity.
Qed.


(** [str n] is a non-empty string of digits. *)
Lemma string_of_uint_digits (d : Decimal.uint) :
  string_forall is_digit (NilEmpty.string_of_uint d) = true.
Proof. induction d; simpl; auto. Qed.


Lemma str_digits (n : nat) : string_forall is_digit (str n) = true.
Proof. apply string_of_uint_digits. Qed.




Lemma digit_not_whitespace (c : ascii) :
  is_digit c = true -> negb (is_whitespace c) = true.
Proof.
  unfold is_digit. simpl. intros H.
  repeat (apply orb_true_iff in H as [H|H];
          [apply Ascii.eqb_eq in H; subst c; reflexivity|]).
  discriminate.
Qed.




End StringFacts.

(** ** Facts about the corpus *)

Module CorpusFacts.



(** *** The loop of [mit_list2df] *)

Lemma mit_fold (lines : list string) : forall n acc,
  fold_left mit_step lines (n, acc)
  = (n + delimiter_count lines,
     acc ++ map render (tag_lines is_delimiter n lines)).
Proof.
  unfold delimiter_count.
  induction lines as [|line rest IH]; intros n acc; simpl.
  - now rewrite Nat.add_0_r, List.app_nil_r.
  - fold (is_delimiter line). destruct (is_delimiter line) eqn:E; simpl.
    + rewrite IH. f_equal. lia.
    + rewrite IH, <- List.app_assoc. reflexivity.
Qed.

Lemma mit_list2df_tag (lines : list string) :
  mit_list2df lines = map render (tag_lines is_delimiter 0 lines).
Proof. unfold mit_list2df. now rewrite mit_fold. Qed.






(** *** The tokenizer on the text of [mit_list2df] *)





(** *** [read_csv] and the filter on the rows of a split *)










(** *** The counter and the delimiter *)



Lemma tag_lines_app (delim : string -> bool) (a b : list string) : forall n,
  tag_lines delim n (a ++ b)
  = tag_lines delim n a ++ tag_lines delim (n + length (filter delim a)) b.
Proof.
  induction a as [|x a IH]; intros n; simpl.
  - now rewrite Nat.add_0_r.
  - destruct (delim x); simpl; rewrite IH; [|reflexivity].
    now rewrite Nat.add_succ_r.
Qed.






(** *** Malformed lines *)





(** *** The labels *)

Section Unique.
Context {A : Type} (eq_dec : forall a b : A, {a = b} + {a <> b}).

Lemma unique_from_In (l : list A) : forall seen v,
  In v (unique_from eq_dec seen l) <-> In v l /\ ~ In v seen.
Proof.
  induction l as [|x l IH]; intros seen v; simpl; [tauto|].
  destruct (in_dec eq_dec x seen) as [Hin|Hnin].
  - rewrite IH. split; [tauto|]. intros [[->|H] Hs]; tauto.
  - simpl. rewrite IH. simpl. split.
    + intros [->|[H Hs]]; [tauto|]. split; [tauto|]. intros H'. apply Hs. now right.
    + intros [[->|H] Hs]; [tauto|].
      destruct (eq_dec x v) as [->|Hne]; [tauto|].
      right. split; [assumption|]. intros [E|H']; tauto.
Qed.

Lemma unique_from_NoDup (l : list A) : forall seen, NoDup (unique_from eq_dec seen l).
Proof.
  induction l as [|x l IH]; intros seen; simpl; [constructor|].
  destruct (in_dec eq_dec x seen); [apply IH|].
  constructor; [|apply IH].
  rewrite unique_from_In. simpl. tauto.
Qed.

Lemma unique_from_fixed (l : list A) : forall seen,
  NoDup l -> (forall v, In v l -> ~ In v seen) -> unique_from eq_dec seen l = l.
Proof.
  induction l as [|x l IH]; intros seen Hnd Hs; simpl; [reflexivity|].
  inversion Hnd; subst.
  destruct (in_dec eq_dec x seen) as [Hin|_].
  - exfalso. apply (Hs x); [now left | assumption].
  - f_equal. apply IH; [assumption|].
    intros v Hv [E|H']; [now subst v | apply (Hs v); [now right | assumption]].
Qed.

End Unique.

Lemma unique_In (l : list value) (v : value) : In v (unique l) <-> In v l.
Proof. unfold unique. rewrite unique_from_In. simpl. tauto. Qed.

Lemma unique_NoDup (l : list value) : NoDup (unique l).
Proof. apply unique_from_NoDup. Qed.

(** C9: the labels [prepare_data] returns are the distinct values of the
    column [labels] of the training rows, each once; reading the rows in
    another order gives the same labels (in the order in which they are
    then met), and taking the distinct values again changes nothing. *)
Theorem labels_are_the_distinct_values :
  (forall files df_train df_test label,
      prepare_data files = Ok (df_train, df_test, label) ->
      label = unique (map labels df_train)) /\
  (forall df,
      NoDup (unique (map labels df)) /\
      (forall v, In v (unique (map labels df)) <-> exists r, In r df /\ labels r = v) /\
      unique (unique (map labels df)) = unique (map labels df)) /\
  (forall df df',
      Permutation df df' ->
      Permutation (unique (map labels df)) (unique (map labels df')) /\
      (forall v, In v (unique (map labels df)) <-> In v (unique (map labels df')))).
Proof.
  split; [|split].
  - intros files tr te lab. unfold prepare_data.
    destruct (getitem files "engtrain"); [|discriminate]. cbn [bind].
    destruct (load_split a); [|discriminate]. cbn [bind].
    destruct (getitem files "engtest"); [|discriminate]. cbn [bind].
    destruct (load_split a1); [|discriminate]. cbn [bind].
    intros H. now injection H as <- <- <-.
  - intros df. split; [apply unique_NoDup|]. split.
    + intros v. rewrite unique_In, in_map_iff.
      split; intros [r Hr]; exists r; tauto.
    + apply unique_from_fixed; [apply unique_NoDup | auto].
  - intros df df' Hp.
    assert (Hiff : forall v, In v (unique (map labels df))
                         <-> In v (unique (map labels df'))).
    { intros v. rewrite !unique_In.
      split; apply Permutation_in; [|symmetry]; now apply Permutation_map. }
    split; [|exact Hiff].
    apply NoDup_Permutation; [apply unique_NoDup | apply unique_NoDup | exact Hiff].
Qed.

Lemma labels_are_the_distinct_values_witness :
  Permutation
    (unique (map labels [ {| sentence_id := VStr "0"; labels := VStr "O"; words := VStr "a" |};
                          {| sentence_id := VStr "0"; labels := VStr "B"; words := VStr "b" |} ]))
    (unique (map labels [ {| sentence_id := VStr "0"; labels := VStr "B"; words := VStr "b" |};
                          {| sentence_id := VStr "0"; labels := VStr "O"; words := VStr "a" |} ])).
Proof.
  apply (proj2 (proj2 labels_are_the_distinct_values)). apply perm_swap.
Defined.

(** *** The number of sentences *)








End CorpusFacts.

(** ** Facts about sorting *)

Section SortFacts.

Context {A : Type} (leb : A -> A -> bool).

Lemma insert_perm (x : A) (l : list A) : Permutation (insert leb x l) (x :: l).
Proof.
  induction l as [|h t IH]; simpl; [reflexivity|].
  destruct (leb x h); [reflexivity|].
  rewrite IH. apply perm_swap.
Qed.

Lemma sort_perm (l : list A) : Permutation (sort leb l) l.
Proof.
  induction l as [|x l IH]; simpl; [reflexivity|].
  rewrite insert_perm. now constructor.
Qed.

Lemma sort_In (l : list A) (x : A) : In x (sort leb l) <-> In x l.
Proof.
  split; apply Permutation_in; [|symmetry]; apply sort_perm.
Qed.

Lemma sort_NoDup (l : list A) : NoDup l -> NoDup (sort leb l).
Proof.
  apply Permutation_NoDup. symmetry. apply sort_perm.
Qed.

Hypothesis leb_total : forall a b, leb a b = true \/ leb b a = true.

Lemma insert_sorted (x : A) (l : list A) :
  Sorted (fun a b => leb a b = true) l ->
  Sorted (fun a b => leb a b = true) (insert leb x l).
Proof.
  induction 1 as [|h t Ht IH Hh]; simpl; [repeat constructor|].
  destruct (leb x h) eqn:E.
  - constructor; [now constructor | now constructor].
  - constructor; [assumption|].
    destruct t as [|h' t']; simpl in *.
    + constructor. destruct (leb_total x h); congruence.
    + destruct (leb x h'); constructor.
      * destruct (leb_total x h); congruence.
      * now inversion Hh.
Qed.

Lemma sort_sorted (l : list A) : Sorted (fun a b => leb a b = true) (sort leb l).
Proof.
  induction l as [|x l IH]; simpl; [constructor | now apply insert_sorted].
Qed.

(** The sort keeps the elements it cannot tell apart in their order. *)
Hypothesis leb_trans :
  forall a b c, leb a b = true -> leb b c = true -> leb a c = true.

Variable R : A -> A -> Prop.



End SortFacts.

(** ** Facts about the order of the index *)

Section OrderFacts.

Lemma ascii_compare_lt_trans (a b c : ascii) :
  Ascii.compare a b = Lt -> Ascii.compare b c = Lt -> Ascii.compare a c = Lt.
Proof.
  unfold Ascii.compare. rewrite !N.compare_lt_iff. apply N.lt_trans.
Qed.

Lemma ascii_compare_refl (a : ascii) : Ascii.compare a a = Eq.
Proof. apply N.compare_refl. Qed.

Lemma string_compare_lt_trans (a : string) : forall b c,
  String.compare a b = Lt -> String.compare b c = Lt -> String.compare a c = Lt.
Proof.
  induction a as [|x a IH]; intros [|y b] [|z c]; simpl; try discriminate; auto.
  destruct (Ascii.compare x y) eqn:E1; try discriminate;
    destruct (Ascii.compare y z) eqn:E2; try discriminate.
  - apply Ascii.compare_eq_iff in E1, E2. subst. rewrite ascii_compare_refl.
    apply IH.
  - apply Ascii.compare_eq_iff in E1. subst. now rewrite E2.
  - apply Ascii.compare_eq_iff in E2. subst. now rewrite E1.
  - now rewrite (ascii_compare_lt_trans x y z E1 E2).
Qed.

Lemma string_compare_refl (a : string) : String.compare a a = Eq.
Proof.
  induction a as [|x a IH]; simpl; [reflexivity|].
  now rewrite ascii_compare_refl.
Qed.

Lemma key_lt_trans (a b c : key) : key_lt a b -> key_lt b c -> key_lt a c.
Proof.
  unfold key_lt. intros [H1|[E1 H1]] [H2|[E2 H2]].
  - left. now apply (string_compare_lt_trans _ (fst b)).
  - left. now rewrite <- E2.
  - left. now rewrite E1.
  - right. split; [congruence | lia].
Qed.

Lemma key_leb_total (a b : key) : key_leb a b = true \/ key_leb b a = true.
Proof.
  unfold key_leb. rewrite (String.compare_antisym (fst a) (fst b)).
  destruct (String.compare (fst b) (fst a)); simpl; auto.
  destruct (Nat.leb_spec (snd a) (snd b)); [now left|].
  right. apply Nat.leb_le. lia.
Qed.

Lemma key_leb_lt (a b : key) : key_leb a b = true -> a <> b -> key_lt a b.
Proof.
  unfold key_leb, key_lt. destruct a as [wa sa], b as [wb sb]. cbn [fst snd].
  destruct (String.compare wa wb) eqn:E; [|now left|discriminate].
  apply String.compare_eq_iff in E. subst wb. intros H Hne.
  apply Nat.leb_le in H. right. split; [reflexivity|].
  assert (sa <> sb) by congruence. lia.
Qed.

Lemma sorted_index (l : list key) :
  NoDup l -> StronglySorted key_lt (sort key_leb l).
Proof.
  intros Hnd. apply Sorted_StronglySorted; [exact key_lt_trans|].
  pose proof (sort_sorted key_leb key_leb_total l) as Hs.
  pose proof (sort_NoDup key_leb l Hnd) as Hn.
  induction Hs as [|a t Ht IH Ha]; [constructor|].
  inversion Hn as [|? ? Hna Hnt]; subst.
  constructor; [now apply IH|].
  destruct Ha as [|b t' Hab]; constructor.
  apply key_leb_lt; [assumption|]. intros ->. apply Hna. now left.
Qed.





Lemma row_key_wide_of (L : list long_row) (cols : list string) (k : key) :
  row_key (wide_of L cols k) = k.
Proof. now destruct k. Qed.


End OrderFacts.

(** ** Facts about the result table *)

Module AggregatorFacts.

Section Table.

Variable predict : string -> list string -> result prediction.
Variable sentences_list : list string.

Local Abbreviation P := (prediction_of predict sentences_list).

(** *** The long table *)

Lemma combine_fst_snd {A B : Type} (p : list (A * B)) :
  combine (map fst p) (map snd p) = p.
Proof. induction p as [|[a b] p IH]; simpl; [reflexivity | now rewrite IH]. Qed.

Lemma df_p_rows (m : string) (i : nat) (p : list (string * string)) :
  df_p m i p
  = map (fun kv => {| world := fst kv; label := snd kv; sentence := i; model := m |}) p.
Proof. unfold df_p. now rewrite combine_fst_snd. Qed.

Lemma concat_flat_map {A B : Type} (f : A -> list (list B)) (l : list A) :
  List.concat (flat_map f l) = flat_map (fun a => List.concat (f a)) l.
Proof.
  induction l as [|a l IH]; simpl; [reflexivity|].
  now rewrite concat_app, IH.
Qed.

Lemma collect_inv (ms : list string) : forall acc li,
  collect predict sentences_list ms acc = Ok li ->
  li = acc ++ flat_map (fun m => frames_of m (P m)) ms /\
  Forall (fun m => predict m sentences_list = Ok (P m)) ms.
Proof.
  induction ms as [|m ms IH]; intros acc li H; simpl in *.
  - injection H as <-. now rewrite List.app_nil_r.
  - unfold prediction_of in *.
    destruct (predict m sentences_list) as [pred|e] eqn:E; [|discriminate].
    apply IH in H as [-> Hall]. rewrite <- List.app_assoc. split; [reflexivity|].
    constructor; [now rewrite E | assumption].
Qed.

Lemma collect_ok (ms : list string) : forall acc,
  Forall (fun m => is_ok (predict m sentences_list) = true) ms ->
  collect predict sentences_list ms acc
  = Ok (acc ++ flat_map (fun m => frames_of m (P m)) ms).
Proof.
  induction ms as [|m ms IH]; intros acc H; simpl.
  - now rewrite List.app_nil_r.
  - inversion H as [|? ? Hm Hms]; subst. unfold prediction_of in *.
    destruct (predict m sentences_list) as [pred|e]; [|discriminate].
    rewrite (IH _ Hms), <- List.app_assoc. reflexivity.
Qed.

Lemma rows_of_In (m : string) (pred : prediction) (r : long_row) :
  In r (rows_of m pred) <->
  exists tok lab i,
    In (tok, lab) (nth i pred []) /\
    r = {| world := tok; label := lab; sentence := i; model := m |}.
Proof.
  unfold rows_of, frames_of. rewrite in_concat. split.
  - intros [f [Hf Hr]]. apply in_map_iff in Hf as [i [<- Hi]].
    rewrite df_p_rows in Hr. apply in_map_iff in Hr as [[tok lab] [<- Hin]].
    now exists tok, lab, i.
  - intros [tok [lab [i [Hin ->]]]].
    exists (df_p m i (nth i pred [])). split.
    + apply in_map_iff. exists i. split; [reflexivity|]. apply in_seq.
      destruct (Nat.lt_ge_cases i (length pred)) as [Hlt|Hge]; [lia|].
      rewrite nth_overflow in Hin by assumption. contradiction.
    + rewrite df_p_rows. apply in_map_iff. now exists (tok, lab).
Qed.

Lemma long_table_In (ms : list string) (r : long_row) :
  In r (long_table ms predict sentences_list) <->
  exists m tok lab i,
    In m ms /\ In (tok, lab) (nth i (P m) []) /\
    r = {| world := tok; label := lab; sentence := i; model := m |}.
Proof.
  unfold long_table. rewrite in_flat_map. split.
  - intros [m [Hm Hr]]. apply rows_of_In in Hr as [tok [lab [i [Hin ->]]]].
    now exists m, tok, lab, i.
  - intros [m [tok [lab [i [Hm [Hin ->]]]]]]. exists m. split; [assumption|].
    apply rows_of_In. now exists tok, lab, i.
Qed.

(** *** From the long table to the result *)

Lemma has_dup_false {A : Type} (dec : forall a b : A, {a = b} + {a <> b})
    (l : list A) :
  has_dup dec l = false <-> NoDup l.
Proof.
  induction l as [|x l IH]; simpl.
  - split; [constructor | reflexivity].
  - destruct (in_dec dec x l) as [Hin|Hnin].
    + split; [discriminate|]. intros H. inversion H; subst. contradiction.
    + rewrite IH. split; [now constructor | intros H; now inversion H].
Qed.

Lemma combine_map {A B : Type} (f : A -> B) (l : list A) :
  combine l (map f l) = map (fun x => (x, f x)) l.
Proof. induction l as [|a l IH]; simpl; [reflexivity | now rewrite IH]. Qed.

Lemma pivot_inv (L : list long_row) (t : pivoted) :
  pivot L = Ok t ->
  NoDup (map entry L) /\
  t = {| p_index := index_of L;
         p_columns := columns_of L;
         p_data := map (fun k => map (cell L k) (columns_of L)) (index_of L) |}.
Proof.
  unfold pivot. fold entry.
  destruct (has_dup entry_eq_dec (map entry L)) eqn:E; [discriminate|].
  intros H. injection H as <-. split; [|reflexivity].
  now apply (has_dup_false entry_eq_dec).
Qed.

Lemma pivot_ok (L : list long_row) :
  NoDup (map entry L) ->
  pivot L = Ok {| p_index := index_of L;
                  p_columns := columns_of L;
                  p_data := map (fun k => map (cell L k) (columns_of L)) (index_of L) |}.
Proof.
  intros H. unfold pivot. fold entry.
  apply (has_dup_false entry_eq_dec) in H. now rewrite H.
Qed.

Lemma finish_rows (L : list long_row) :
  sort_values
    (reset_index
       (fillna 0 {| p_index := index_of L;
                    p_columns := columns_of L;
                    p_data := map (fun k => map (cell L k) (columns_of L))
                                  (index_of L) |}))
  = {| columns := columns_of L;
       rows := sort by_sentence (map (wide_of L (columns_of L)) (index_of L)) |}.
Proof.
  unfold sort_values, reset_index, fillna. cbn [columns rows p_index p_columns p_data].
  f_equal. fold by_sentence. f_equal.
  rewrite map_map, combine_map, map_map. apply map_ext. intros k.
  unfold wide_of. cbn [fst snd]. now rewrite map_map.
Qed.

Lemma test_with_inv (ms : list string) (df : DataFrame) :
  test_with ms predict sentences_list = Ok df ->
  Forall (fun m => predict m sentences_list = Ok (P m)) ms /\
  NoDup (map entry (long_table ms predict sentences_list)) /\
  df = {| columns := columns_of (long_table ms predict sentences_list);
          rows := sort by_sentence
                    (map (wide_of (long_table ms predict sentences_list)
                                  (columns_of (long_table ms predict sentences_list)))
                         (index_of (long_table ms predict sentences_list))) |}.
Proof.
  unfold test_with.
  destruct (collect predict sentences_list ms []) as [li|e] eqn:Ec; [|discriminate].
  apply collect_inv in Ec as [-> Hall]. cbn [bind app].
  destruct (flat_map (fun m => frames_of m (P m)) ms) as [|f fs] eqn:Ef;
    [discriminate|].
  cbn [concat bind]. rewrite <- Ef, concat_flat_map.
  change (flat_map (fun a => List.concat (frames_of a (P a))) ms)
    with (long_table ms predict sentences_list).
  destruct (pivot (long_table ms predict sentences_list)) as [t|e] eqn:Ep;
    cbn [bind]; [|discriminate].
  apply pivot_inv in Ep as [Hnd ->]. unfold reset_index_drop.
  rewrite finish_rows. intros H. injection H as <-. auto.
Qed.

Lemma test_with_ok (ms : list string) :
  Forall (fun m => is_ok (predict m sentences_list) = true) ms ->
  flat_map (fun m => frames_of m (P m)) ms <> [] ->
  NoDup (map entry (long_table ms predict sentences_list)) ->
  test_with ms predict sentences_list
  = Ok {| columns := columns_of (long_table ms predict sentences_list);
          rows := sort by_sentence
                    (map (wide_of (long_table ms predict sentences_list)
                                  (columns_of (long_table ms predict sentences_list)))
                         (index_of (long_table ms predict sentences_list))) |}.
Proof.
  intros Hall Hne Hnd. unfold test_with.
  rewrite (collect_ok _ _ Hall). cbn [bind app].
  destruct (flat_map (fun m => frames_of m (P m)) ms) as [|f fs] eqn:Ef;
    [now contradiction Hne|].
  cbn [concat bind]. rewrite <- Ef, concat_flat_map.
  change (flat_map (fun a => List.concat (frames_of a (P a))) ms)
    with (long_table ms predict sentences_list).
  rewrite (pivot_ok _ Hnd). cbn [bind]. unfold reset_index_drop.
  now rewrite finish_rows.
Qed.

(** *** The index, the columns and the cells *)

Lemma index_In (L : list long_row) (k : key) :
  In k (index_of L) <-> exists r, In r L /\ entry_key r = k.
Proof.
  unfold index_of. rewrite sort_In, nodup_In, in_map_iff.
  split; intros [r Hr]; exists r; tauto.
Qed.

Lemma index_NoDup (L : list long_row) : NoDup (index_of L).
Proof. apply sort_NoDup, NoDup_nodup. Qed.

Lemma columns_In (L : list long_row) (m : string) :
  In m (columns_of L) <-> exists r, In r L /\ model r = m.
Proof.
  unfold columns_of. rewrite sort_In, nodup_In, in_map_iff.
  split; intros [r Hr]; exists r; tauto.
Qed.

Lemma columns_NoDup (L : list long_row) : NoDup (columns_of L).
Proof. apply sort_NoDup, NoDup_nodup. Qed.

Lemma result_rows_In (L : list long_row) (cols : list string) (r : wide_row) :
  In r (sort by_sentence (map (wide_of L cols) (index_of L))) <->
  exists k, In k (index_of L) /\ r = wide_of L cols k.
Proof.
  rewrite sort_In, in_map_iff. split; intros [k Hk]; exists k; intuition.
Qed.

Lemma result_keys (L : list long_row) (cols : list string) :
  Permutation
    (map row_key (sort by_sentence (map (wide_of L cols) (index_of L))))
    (index_of L).
Proof.
  rewrite (Permutation_map row_key (sort_perm by_sentence _)), map_map.
  rewrite (map_ext _ (fun k => k)) by (intros k; apply row_key_wide_of).
  now rewrite map_id.
Qed.

Lemma lookup_map (f : string -> value) (cols : list string) (m : string) :
  In m cols -> lookup cols (map f cols) m = Some (f m).
Proof.
  induction cols as [|c cols IH]; simpl; [contradiction|].
  intros H. destruct (String.eqb c m) eqn:E.
  - apply String.eqb_eq in E. now subst c.
  - apply String.eqb_neq in E. destruct H as [H|H]; [contradiction | auto].
Qed.

Lemma entries_absent (L : list long_row) (k : key) (m : string) :
  (forall r, In r L -> ~ (entry_key r = k /\ model r = m)) ->
  entries L k m = [].
Proof.
  unfold entries. induction L as [|r L IH]; intros H; [reflexivity|].
  cbn [filter]. destruct (key_eq_dec (entry_key r) k) as [Ek|Ek].
  - destruct (String.eqb (model r) m) eqn:Em.
    + apply String.eqb_eq in Em. exfalso. apply (H r); [now left | tauto].
    + apply IH. intros r' Hr'. apply H. now right.
  - apply IH. intros r' Hr'. apply H. now right.
Qed.

Lemma cell_present (L : list long_row) (r : long_row) :
  NoDup (map entry L) -> In r L ->
  cell L (entry_key r) (model r) = VStr (label r).
Proof.
  unfold cell, entries. induction L as [|x L IH]; intros Hnd Hin; [contradiction|].
  cbn [map] in Hnd. inversion Hnd as [|? ? Hx HL]; subst.
  cbn [filter]. destruct Hin as [->|Hin].
  - destruct (key_eq_dec (entry_key r) (entry_key r)) as [_|Hne];
      [|now contradiction Hne].
    now rewrite String.eqb_refl.
  - destruct (key_eq_dec (entry_key x) (entry_key r)) as [Ek|Ek]; [|now apply IH].
    destruct (String.eqb (model x) (model r)) eqn:Em; [|now apply IH].
    apply String.eqb_eq in Em. exfalso. apply Hx.
    apply in_map_iff. exists r. split; [|assumption].
    unfold entry. now rewrite Ek, Em.
Qed.

Lemma long_table_entries (ms : list string) :
  map entry (long_table ms predict sentences_list)
  = flat_map (fun m => map (fun k => (k, m)) (emitted_keys (P m))) ms.
Proof.
  unfold long_table. induction ms as [|m ms IH]; [reflexivity|].
  cbn [flat_map]. rewrite map_app, IH. f_equal.
  unfold rows_of, frames_of, emitted_keys.
  rewrite concat_map, !map_map, <- flat_map_concat_map.
  generalize (seq 0 (length (P m))). intros l.
  induction l as [|i l IHl]; [reflexivity|].
  cbn [map flat_map List.concat]. rewrite map_app, IHl. f_equal.
  now rewrite df_p_rows, !map_map.
Qed.

Lemma emitted_keys_In (pred : prediction) (k : key) :
  In k (emitted_keys pred) <-> exists lab, emits pred k lab.
Proof.
  unfold emitted_keys, emits. rewrite in_flat_map. split.
  - intros [i [_ H]]. apply in_map_iff in H as [[tok lab] [<- H]].
    now exists lab.
  - intros [lab H]. exists (snd k). split.
    + apply in_seq.
      destruct (Nat.lt_ge_cases (snd k) (length pred)) as [Hlt|Hge]; [lia|].
      rewrite nth_overflow in H by assumption. contradiction.
    + apply in_map_iff. exists (fst k, lab). split; [now destruct k | assumption].
Qed.

Lemma emits_bound (pred : prediction) (k : key) (lab : string) :
  emits pred k lab -> snd k < length pred.
Proof.
  unfold emits. intros H.
  destruct (Nat.lt_ge_cases (snd k) (length pred)) as [Hlt|Hge]; [assumption|].
  rewrite nth_overflow in H by assumption. contradiction.
Qed.

Lemma long_table_emits (ms : list string) (k : key) (m lab : string) :
  In m ms -> emits (P m) k lab ->
  In {| world := fst k; label := lab; sentence := snd k; model := m |}
     (long_table ms predict sentences_list).
Proof.
  intros Hm He. apply long_table_In. now exists m, (fst k), lab, (snd k).
Qed.

Lemma NoDup_flat_map_piece {A B : Type} (f : A -> list B) (l : list A) (x : A) :
  NoDup (flat_map f l) -> In x l -> NoDup (f x).
Proof.
  induction l as [|a l IH]; simpl; [contradiction|].
  intros Hnd [->|Hin].
  - now apply NoDup_app_remove_r in Hnd.
  - apply NoDup_app_remove_l in Hnd. auto.
Qed.

Lemma entries_NoDup (ms : list string) :
  NoDup ms ->
  (forall m, In m ms -> NoDup (emitted_keys (P m))) ->
  NoDup (flat_map (fun m => map (fun k => (k, m)) (emitted_keys (P m))) ms).
Proof.
  induction 1 as [|m ms Hm Hms IH]; intros Hk; cbn [flat_map]; [constructor|].
  apply NoDup_app.
  - apply Finite.Injective_map_NoDup; [|apply Hk; now left].
    intros a b H. now injection H.
  - apply IH. intros m' Hm'. apply Hk. now right.
  - intros [k m'] H1 H2.
    apply in_map_iff in H1 as [k1 [E1 _]]. injection E1 as _ <-.
    apply in_flat_map in H2 as [m2 [Hm2 H2]].
    apply in_map_iff in H2 as [k2 [E2 _]]. injection E2 as _ <-.
    contradiction.
Qed.

Lemma frames_nonempty (ms : list string) :
  (exists m, In m ms /\ P m <> []) ->
  flat_map (fun m => frames_of m (P m)) ms <> [].
Proof.
  intros [m [Hm Hp]] E.
  assert (H : In (df_p m 0 (nth 0 (P m) [])) (flat_map (fun m => frames_of m (P m)) ms)).
  { apply in_flat_map. exists m. split; [assumption|].
    unfold frames_of. destruct (P m) as [|p ps]; [now contradiction Hp|].
    now left. }
  now rewrite E in H.
Qed.

(** *** The rows and their keys *)

(** *** The rows and their keys *)

Lemma result_table_facts (ms : list string) (df : DataFrame) :
  test_with ms predict sentences_list = Ok df ->
  NoDup (map row_key (rows df)) /\
  (forall k, In k (map row_key (rows df)) <->
             exists m lab, In m ms /\ emits (P m) k lab) /\
  (forall r m lab,
      In r (rows df) -> In m ms -> emits (P m) (row_key r) lab ->
      label_of df r m = Some (VStr lab)) /\
  (forall m, In m ms -> NoDup (emitted_keys (P m))).
Proof.
  intros H. apply test_with_inv in H as [Hall [Hnd ->]].
  cbn [rows columns]. set (L := long_table ms predict sentences_list) in *.
  assert (Hkeys : forall k, In k (index_of L) <->
                            exists m lab, In m ms /\ emits (P m) k lab).
  { intros k. rewrite index_In. split.
    - intros [r [Hr <-]]. apply long_table_In in Hr
        as [m [tok [lab [i [Hm [Hin ->]]]]]].
      now exists m, lab.
    - intros [m [lab [Hm He]]].
      exists {| world := fst k; label := lab; sentence := snd k; model := m |}.
      split; [now apply long_table_emits | now destruct k]. }
  split; [|split; [|split]].
  - apply (Permutation_NoDup (l := index_of L));
      [symmetry; apply result_keys | apply index_NoDup].
  - intros k. rewrite <- Hkeys.
    split; apply Permutation_in; [|symmetry]; apply result_keys.
  - intros r m lab Hr Hm He.
    apply result_rows_In in Hr as [k [Hk ->]].
    rewrite row_key_wide_of in He.
    pose proof (long_table_emits ms k m lab Hm He) as Hin. fold L in Hin.
    unfold label_of, wide_of. cbn [columns r_label].
    rewrite (lookup_map (fun m => fill 0 (cell L k m)));
      [|apply columns_In; eexists; split; [exact Hin | reflexivity]].
    pose proof (cell_present L _ Hnd Hin) as Hc.
    unfold entry_key in Hc. cbn [world sentence model label] in Hc.
    replace (fst k, snd k) with k in Hc by now destruct k.
    now rewrite Hc.
  - intros m Hm. subst L. rewrite long_table_entries in Hnd.
    apply (NoDup_flat_map_piece _ _ m) in Hnd; [|assumption].
    now apply NoDup_map_inv in Hnd.
Qed.

Lemma test_with_returns (ms : list string) :
  NoDup ms ->
  Forall (fun m => is_ok (predict m sentences_list) = true) ms ->
  (exists m, In m ms /\ P m <> []) ->
  (forall m, In m ms -> NoDup (emitted_keys (P m))) ->
  exists df, test_with ms predict sentences_list = Ok df.
Proof.
  intros Hms Hall Hne Hk. eexists. apply test_with_ok; [assumption | |].
  - now apply frames_nonempty.
  - rewrite long_table_entries. now apply entries_NoDup.
Qed.

(** C2, as the program has it: when [test] returns a table, it has
    exactly one row for each (word, sentence) pair that some model emitted,
    the rows of different models for one pair are merged (each model's
    label is in its column), and no model emitted a pair twice; and it
    does return a table when the models are distinct, every prediction
    succeeds, some prediction has a sentence and no model emits a pair
    twice.  [test] is [test_with models]. *)
Theorem one_row_per_key (ms : list string) :
  (forall df,
      test_with ms predict sentences_list = Ok df ->
      NoDup (map row_key (rows df)) /\
      (forall k, In k (map row_key (rows df)) <->
                 exists m lab, In m ms /\ emits (P m) k lab) /\
      (forall r m lab,
          In r (rows df) -> In m ms -> emits (P m) (row_key r) lab ->
          label_of df r m = Some (VStr lab)) /\
      (forall m, In m ms -> NoDup (emitted_keys (P m)))) /\
  (NoDup ms ->
   Forall (fun m => is_ok (predict m sentences_list) = true) ms ->
   (exists m, In m ms /\ P m <> []) ->
   (forall m, In m ms -> NoDup (emitted_keys (P m))) ->
   exists df, test_with ms predict sentences_list = Ok df).
Proof.
  split; [exact (result_table_facts ms) | exact (test_with_returns ms)].
Qed.


(** C5, as the program has it: the label columns of the table are the
    models that emitted at least one prediction, each once (a model that
    predicted nothing has no column); every row has one cell for each
    column, and the cell of a model that emitted nothing for the row's
    pair is 0. *)
Theorem columns_are_the_emitting_models (ms : list string) (df : DataFrame) :
  test_with ms predict sentences_list = Ok df ->
  (forall m, In m (columns df) <->
             In m ms /\ exists k lab, emits (P m) k lab) /\
  NoDup (columns df) /\
  (forall r, In r (rows df) -> length (r_label r) = length (columns df)) /\
  (forall r m,
      In r (rows df) -> In m (columns df) ->
      (forall lab, ~ emits (P m) (row_key r) lab) ->
      label_of df r m = Some (VInt 0)).
Proof.
  intros H. apply test_with_inv in H as [_ [_ ->]]. cbn [rows columns].
  set (L := long_table ms predict sentences_list).
  split; [|split; [|split]].
  - intros m. rewrite columns_In. split.
    + intros [r [Hr <-]]. apply long_table_In in Hr
        as [m [tok [lab [i [Hm [Hin ->]]]]]].
      split; [assumption|]. now exists (tok, i), lab.
    + intros [Hm [k [lab He]]].
      exists {| world := fst k; label := lab; sentence := snd k; model := m |}.
      split; [now apply long_table_emits | reflexivity].
  - apply columns_NoDup.
  - intros r Hr. apply result_rows_In in Hr as [k [_ ->]].
    unfold wide_of. cbn [r_label]. apply length_map.
  - intros r m Hr Hm Hno. apply result_rows_In in Hr as [k [Hk ->]].
    rewrite row_key_wide_of in Hno.
    unfold label_of, wide_of. cbn [columns r_label].
    rewrite (lookup_map (fun m => fill 0 (cell L k m))) by assumption.
    unfold cell. rewrite entries_absent; [reflexivity|].
    intros r Hr [Ek Em]. apply long_table_In in Hr
      as [m' [tok [lab [i [_ [Hin ->]]]]]].
    cbn in Ek, Em. subst m' k. now apply (Hno lab).
Qed.


(** C7, as the program has it: [test] never compares the number of
    predictions of a model with the number of sentences.  Whatever that
    number, each pair a model emitted for its sentence [i] has its row
    with the label in the model's column (nothing is cut off), and each
    row comes from a pair some model emitted at a position below the
    length of its prediction (nothing is added); the only exceptions
    [test] raises are the [Exception] wrapped around a failure of the
    model and the ValueError of [pd.concat] or [pivot]. *)
Theorem predictions_used_in_full (ms : list string) :
  (forall df,
      test_with ms predict sentences_list = Ok df ->
      (forall m tok lab i,
          In m ms -> In (tok, lab) (nth i (P m) []) ->
          exists r, In r (rows df) /\ row_key r = (tok, i) /\
                    label_of df r m = Some (VStr lab)) /\
      (forall r, In r (rows df) ->
                 exists m lab, In m ms /\ emits (P m) (row_key r) lab /\
                               r_sentence r < length (P m))) /\
  (forall e,
      test_with ms predict sentences_list = Raise e ->
      (exists ex, e = Exception ex) \/ (exists msg, e = ValueError msg)).
Proof.
  split.
  - intros df H.
    destruct (result_table_facts ms df H) as [_ [Hkeys [Hlab _]]].
    split.
    + intros m tok lab i Hm Hin.
      assert (He : emits (P m) (tok, i) lab) by exact Hin.
      assert (Hk : In (tok, i) (map row_key (rows df)))
        by (apply Hkeys; now exists m, lab).
      apply in_map_iff in Hk as [r [Hr Hin']]. exists r.
      split; [assumption|]. split; [assumption|].
      apply Hlab; [assumption | assumption | now rewrite Hr].
    + intros r Hr.
      assert (Hk : In (row_key r) (map row_key (rows df))) by now apply in_map.
      apply Hkeys in Hk as [m [lab [Hm He]]]. exists m, lab.
      split; [assumption|]. split; [assumption|].
      exact (emits_bound _ _ _ He).
  - intros e. unfold test_with.
    destruct (collect predict sentences_list ms []) as [li|e'] eqn:Ec; cbn [bind].
    + destruct li as [|f fs]; cbn [concat bind].
      * intros H. injection H as <-. right. eauto.
      * unfold pivot. destruct (has_dup _ _); cbn [bind]; [|discriminate].
        intros H. injection H as <-. right. eauto.
    + intros H. injection H as <-. left.
      clear -Ec. revert Ec. generalize (@nil (list long_row)).
      induction ms as [|m ms IH]; intros acc; simpl; [discriminate|].
      destruct (predict m sentences_list); [apply IH|].
      intros H. injection H as <-. eauto.
Qed.

End Table.

(** *** The claims on examples *)

(** The scenario of the two models that read "hi" with different labels:
    one row, with a label under each of them. *)
Example hi_scenario :
  test predict_hi ["hi"]
  = Ok {| columns := ["bert"; "roberta"];
          rows := [ {| r_world := "hi"; r_sentence := 0;
                       r_label := [VStr "O"; VStr "B-PER"] |} ] |}.
Proof. vm_compute. reflexivity. Qed.



(** C2 as stated fails: a model that emits a pair twice does not override
    its cell, the reshape raises. *)
Lemma repeated_key_raises :
  test predict_repeat ["the the"]
  = Raise (ValueError "Index contains duplicate entries, cannot reshape").
Proof. vm_compute. reflexivity. Qed.

Lemma one_row_per_key_witness :
  exists df,
    test predict_hi ["hi"] = Ok df /\
    NoDup (map row_key (rows df)) /\
    (forall k, In k (map row_key (rows df)) <->
               exists m lab, In m models /\
                             emits (prediction_of predict_hi ["hi"] m) k lab).
Proof.
  eexists. split; [vm_compute; reflexivity|].
  match goal with
  | |- NoDup (map row_key (rows ?df)) /\ _ =>
      assert (H : test_with models predict_hi ["hi"] = Ok df)
        by (vm_compute; reflexivity)
  end.
  destruct (proj1 (one_row_per_key predict_hi ["hi"] models) _ H) as [H1 [H2 _]].
  split; assumption.
Defined.

(** C5 as stated fails: distilbert predicts nothing and has no column. *)
Lemma silent_model_has_no_column :
  test predict_one_silent ["hi"]
  = Ok {| columns := ["bert"; "roberta"];
          rows := [ {| r_world := "hi"; r_sentence := 0;
                       r_label := [VStr "O"; VStr "O"] |} ] |}.
Proof. vm_compute. reflexivity. Qed.

Lemma columns_are_the_emitting_models_witness :
  exists df,
    test predict_hi ["hi"] = Ok df /\
    (forall m, In m (columns df) <->
               In m models /\
               exists k lab, emits (prediction_of predict_hi ["hi"] m) k lab) /\
    NoDup (columns df).
Proof.
  eexists. split; [vm_compute; reflexivity|].
  match goal with
  | |- _ /\ NoDup (columns ?df) =>
      assert (H : test_with models predict_hi ["hi"] = Ok df)
        by (vm_compute; reflexivity)
  end.
  destruct (columns_are_the_emitting_models predict_hi ["hi"] models _ H)
    as [H1 [H2 _]].
  split; assumption.
Defined.



(** C7 as stated fails: one sentence, predictions for two, and [test]
    returns a table. *)
Lemma length_mismatch_not_signalled :
  length ["a"] <> length (prediction_of predict_two_sentences ["a"] "bert") /\
  test predict_two_sentences ["a"]
  = Ok {| columns := ["bert"; "distilbert"; "roberta"];
          rows := [ {| r_world := "a"; r_sentence := 0;
                       r_label := [VStr "O"; VStr "O"; VStr "O"] |};
                    {| r_world := "b"; r_sentence := 1;
                       r_label := [VStr "B"; VStr "B"; VStr "B"] |} ] |}.
Proof. split; [discriminate | vm_compute; reflexivity]. Qed.

Lemma predictions_used_in_full_witness :
  exists df,
    test predict_two_sentences ["a"] = Ok df /\
    exists r, In r (rows df) /\ row_key r = ("b", 1) /\
              label_of df r "bert" = Some (VStr "B").
Proof.
  eexists. split; [vm_compute; reflexivity|].
  match goal with
  | |- exists r, In r (rows ?df) /\ _ =>
      assert (H : test_with models predict_two_sentences ["a"] = Ok df)
        by (vm_compute; reflexivity)
  end.
  apply (proj1 (proj1 (predictions_used_in_full predict_two_sentences ["a"] models)
                      _ H)
               "bert" "b" "B" 1);
    [now left | now left].
Defined.

End AggregatorFacts.


(** ** More facts about the result table *)

Module AggregatorMore.

Import AggregatorFacts.

(** *** Sorted lists without repetition are determined by their elements *)

Section Canonical.

Context {A : Type} (lt : A -> A -> Prop).
Hypothesis lt_irrefl : forall a, ~ lt a a.
Hypothesis lt_trans : forall a b c, lt a b -> lt b c -> lt a c.

Lemma sorted_same_elements (l : list A) : forall l',
  StronglySorted lt l -> StronglySorted lt l' ->
  (forall x, In x l <-> In x l') -> l = l'.
Proof.
  induction l as [|a t IH]; intros [|b t'] Hl Hl' Hin.
  - reflexivity.
  - exfalso. apply (proj2 (Hin b)). now left.
  - exfalso. apply (proj1 (Hin a)). now left.
  - inversion Hl as [|? ? Ht Ha]; subst. inversion Hl' as [|? ? Ht' Hb]; subst.
    rewrite Forall_forall in Ha, Hb.
    assert (E : a = b).
    { destruct (proj1 (Hin a) (or_introl eq_refl)) as [E|Ha']; [now symmetry|].
      destruct (proj2 (Hin b) (or_introl eq_refl)) as [E|Hb']; [assumption|].
      exfalso. apply (lt_irrefl a). apply (lt_trans a b a); auto. }
    subst b. f_equal. apply IH; try assumption.
    intros x. split; intros Hx.
    + destruct (proj1 (Hin x) (or_intror Hx)) as [E|H]; [|assumption].
      subst x. exfalso. apply (lt_irrefl a). auto.
    + destruct (proj2 (Hin x) (or_intror Hx)) as [E|H]; [|assumption].
      subst x. exfalso. apply (lt_irrefl a). auto.
Qed.

End Canonical.

Lemma key_lt_irrefl (a : key) : ~ key_lt a a.
Proof.
  unfold key_lt. rewrite string_compare_refl. intros [H|[_ H]]; [discriminate | lia].
Qed.

Lemma string_lt_irrefl (a : string) : ~ string_lt a a.
Proof. unfold string_lt. now rewrite string_compare_refl. Qed.

Lemma string_leb_lt (a b : string) : String.leb a b = true -> a <> b -> string_lt a b.
Proof.
  unfold String.leb, string_lt. destruct (String.compare a b) eqn:E; try discriminate.
  - apply String.compare_eq_iff in E. contradiction.
  - reflexivity.
Qed.

Lemma sorted_columns (l : list string) :
  NoDup l -> StronglySorted string_lt (sort String.leb l).
Proof.
  intros Hnd.
  apply Sorted_StronglySorted; [exact (fun a b c => string_compare_lt_trans a b c)|].
  pose proof (sort_sorted String.leb String.leb_total l) as Hs.
  pose proof (sort_NoDup String.leb l Hnd) as Hn.
  induction Hs as [|a t Ht IH Ha]; [constructor|].
  inversion Hn as [|? ? Hna Hnt]; subst.
  constructor; [now apply IH|].
  destruct Ha as [|b t' Hab]; constructor.
  apply string_leb_lt; [assumption|]. intros ->. apply Hna. now left.
Qed.

(** *** The table depends on the rows of the long table, not on their order *)

Lemma index_of_same (L L' : list long_row) :
  (forall k, In k (map entry_key L) <-> In k (map entry_key L')) ->
  index_of L = index_of L'.
Proof.
  intros H. apply (sorted_same_elements key_lt key_lt_irrefl key_lt_trans).
  - apply sorted_index, NoDup_nodup.
  - apply sorted_index, NoDup_nodup.
  - intros k. unfold index_of. now rewrite !sort_In, !nodup_In.
Qed.

Lemma columns_of_same (L L' : list long_row) :
  (forall m, In m (map model L) <-> In m (map model L')) ->
  columns_of L = columns_of L'.
Proof.
  intros H.
  apply (sorted_same_elements string_lt string_lt_irrefl
           (fun a b c => string_compare_lt_trans a b c)).
  - apply sorted_columns, NoDup_nodup.
  - apply sorted_columns, NoDup_nodup.
  - intros m. unfold columns_of. now rewrite !sort_In, !nodup_In.
Qed.

Lemma entries_none (L : list long_row) (k : key) (m : string) :
  (forall r, In r L -> ~ (entry_key r = k /\ model r = m)) -> entries L k m = [].
Proof. exact (entries_absent (fun _ _ => Ok []) [] L k m). Qed.

Lemma columns_mem (L : list long_row) (m : string) :
  In m (columns_of L) <-> exists r, In r L /\ model r = m.
Proof.
  unfold columns_of. rewrite sort_In, nodup_In, in_map_iff.
  split; intros [r [A B]]; exists r; auto.
Qed.

Lemma cell_perm (L L' : list long_row) (k : key) (m : string) :
  NoDup (map entry L) -> Permutation L L' -> cell L k m = cell L' k m.
Proof.
  intros Hnd Hp.
  assert (Hnd' : NoDup (map entry L'))
    by (apply (Permutation_NoDup (l := map entry L)); [now apply Permutation_map | assumption]).
  destruct (in_dec entry_eq_dec (k, m) (map entry L)) as [Hin|Hnin].
  - apply in_map_iff in Hin as [r [Er Hr]]. injection Er as <- <-.
    rewrite (cell_present L r Hnd Hr).
    now rewrite (cell_present L' r Hnd' (Permutation_in _ Hp Hr)).
  - unfold cell. rewrite (entries_none L k m), (entries_none L' k m);
      [reflexivity | |].
    + intros r Hr [Ek Em]. apply Hnin. apply in_map_iff. exists r.
      split; [unfold entry; now rewrite Ek, Em|].
      apply (Permutation_in _ (Permutation_sym Hp) Hr).
    + intros r Hr [Ek Em]. apply Hnin. apply in_map_iff. exists r.
      split; [unfold entry; now rewrite Ek, Em | assumption].
Qed.

Lemma table_perm (L L' : list long_row) :
  NoDup (map entry L) -> Permutation L L' -> table_of L = table_of L'.
Proof.
  intros Hnd Hp. unfold table_of.
  assert (Hi : index_of L = index_of L').
  { apply index_of_same. intros k.
    split; apply Permutation_in; [|symmetry]; now apply Permutation_map. }
  assert (Hc : columns_of L = columns_of L').
  { apply columns_of_same. intros m.
    split; apply Permutation_in; [|symmetry]; now apply Permutation_map. }
  rewrite <- Hi, <- Hc. f_equal. f_equal. apply map_ext. intros k.
  unfold wide_of. f_equal. apply map_ext. intros m.
  now rewrite (cell_perm L L' k m Hnd Hp).
Qed.

Section Table.

Variable predict : string -> list string -> result prediction.
Variable sentences_list : list string.

Local Abbreviation P := (prediction_of predict sentences_list).

Lemma test_with_table (ms : list string) (df : DataFrame) :
  test_with ms predict sentences_list = Ok df <->
  Forall (fun m => is_ok (predict m sentences_list) = true) ms /\
  flat_map (fun m => frames_of m (P m)) ms <> [] /\
  NoDup (map entry (long_table ms predict sentences_list)) /\
  df = table_of (long_table ms predict sentences_list).
Proof.
  split.
  - intros H.
    assert (Hne : flat_map (fun m => frames_of m (P m)) ms <> []).
    { intros E. revert H. unfold test_with.
      destruct (collect predict sentences_list ms []) as [li|e] eqn:Ec; [|discriminate].
      apply collect_inv in Ec as [-> _]. cbn [app]. rewrite E. discriminate. }
    apply test_with_inv in H as [Hall [Hnd ->]].
    split; [|now repeat split].
    revert Hall. apply Forall_impl. intros m Hm. now rewrite Hm.
  - intros [Hall [Hne [Hnd ->]]]. now apply test_with_ok.
Qed.

(** X1: the order of the models in the list does not matter: a list with
    the same models in another order gives the same table. *)
Theorem model_order_irrelevant (ms ms' : list string) (df : DataFrame) :
  Permutation ms ms' ->
  test_with ms predict sentences_list = Ok df ->
  test_with ms' predict sentences_list = Ok df.
Proof.
  intros Hp H. apply test_with_table in H as [Hall [Hne [Hnd ->]]].
  apply test_with_table.
  assert (HL : Permutation (long_table ms predict sentences_list)
                           (long_table ms' predict sentences_list))
    by (unfold long_table; now apply Permutation_flat_map).
  split; [now apply (Permutation_Forall Hp)|]. split; [|split].
  - intros E. apply Hne. apply Permutation_nil.
    rewrite <- E. symmetry. now apply Permutation_flat_map.
  - apply (Permutation_NoDup (l := map entry (long_table ms predict sentences_list)));
      [now apply Permutation_map | assumption].
  - now apply table_perm.
Qed.

Lemma fill_notnull (v : value) : fill 0 v <> NaN.
Proof. now destruct v. Qed.

Lemma same_entry_same_row (L : list long_row) (a b : long_row) :
  NoDup (map entry L) -> In a L -> In b L -> entry a = entry b -> a = b.
Proof.
  induction L as [|x L IH]; intros Hnd Ha Hb E; [contradiction|].
  cbn [map] in Hnd. inversion Hnd as [|? ? Hx HL]; subst.
  destruct Ha as [->|Ha], Hb as [->|Hb]; auto.
  - exfalso. apply Hx. rewrite E. now apply in_map.
  - exfalso. apply Hx. rewrite <- E. now apply in_map.
Qed.

(** X2: in a table [test] returns, under each model each row holds either
    a label the model gave for the row's word in the row's sentence, and
    then the only one it gave, or the number 0, and then the model gave
    none; no cell is missing. *)
Theorem cells_are_labels_or_zero (ms : list string) (df : DataFrame) :
  test_with ms predict sentences_list = Ok df ->
  forall r, In r (rows df) ->
    Forall (fun v => v <> NaN) (r_label r) /\
    forall m, In m (columns df) ->
      (exists lab, label_of df r m = Some (VStr lab) /\
                   emits (P m) (row_key r) lab /\
                   forall lab', emits (P m) (row_key r) lab' -> lab' = lab) \/
      (label_of df r m = Some (VInt 0) /\
       forall lab, ~ emits (P m) (row_key r) lab).
Proof.
  intros H r Hr. apply test_with_inv in H as [_ [Hnd ->]].
  cbn [rows columns] in *. set (L := long_table ms predict sentences_list) in *.
  apply result_rows_In in Hr as [k [Hk ->]]. split.
  - unfold wide_of. cbn [r_label]. apply Forall_map, Forall_forall.
    intros m _. apply fill_notnull.
  - intros m Hm. rewrite row_key_wide_of.
    unfold label_of, wide_of. cbn [columns r_label].
    rewrite (lookup_map (fun m => fill 0 (cell L k m))) by assumption.
    destruct (in_dec entry_eq_dec (k, m) (map entry L)) as [Hin|Hnin].
    + left. apply in_map_iff in Hin as [r0 [Er Hr0]]. injection Er as <- <-.
      rewrite (cell_present L r0 Hnd Hr0). exists (label r0).
      split; [reflexivity|].
      pose proof Hr0 as Hl. apply long_table_In in Hl
        as [m0 [tok [lab [i [Hm0 [Hemit ->]]]]]].
      split; [exact Hemit|].
      intros lab' He.
      pose proof (long_table_emits predict sentences_list ms (tok, i) m0 lab' Hm0 He)
        as Hr1.
      cbn [fst snd] in Hr1.
      assert (E : {| world := tok; label := lab'; sentence := i; model := m0 |}
                  = {| world := tok; label := lab; sentence := i; model := m0 |})
        by (apply (same_entry_same_row L); auto).
      now injection E.
    + right. unfold cell. rewrite entries_none.
      * split; [reflexivity|]. intros lab He. apply Hnin.
        apply (proj1 (columns_mem L m)) in Hm as [r0 [Hr0 Em]].
        apply long_table_In in Hr0 as [m0 [tok0 [lab0 [i0 [Hm0 [_ E0]]]]]].
        subst r0. cbn in Em. subst m0.
        pose proof (long_table_emits predict sentences_list ms k m lab Hm0 He) as Hr1.
        apply in_map_iff. eexists. split; [|exact Hr1].
        unfold entry, entry_key. cbn. now destruct k.
      * intros r0 Hr0 [Ek Em]. apply Hnin. apply in_map_iff. exists r0.
        split; [unfold entry; now rewrite Ek, Em | assumption].
Qed.

(** X3: when a model fails to load or to predict, [test] raises the
    [Exception] wrapped around the failure of the first such model of the
    list, whatever the models before it returned and whatever the models
    after it would do. *)
Theorem first_failure_wins (before after : list string) (m : string) (ex : exn) :
  Forall (fun m' => is_ok (predict m' sentences_list) = true) before ->
  predict m sentences_list = Raise ex ->
  test_with (before ++ m :: after) predict sentences_list = Raise (Exception ex).
Proof.
  intros Hb Hm. unfold test_with.
  assert (Hc : forall acc,
             collect predict sentences_list (before ++ m :: after) acc
             = Raise (Exception ex)).
  { induction Hb as [|m' before' Hm' _ IH]; intros acc; cbn [app collect].
    - now rewrite Hm.
    - destruct (predict m' sentences_list); [apply IH | discriminate]. }
  now rewrite Hc.
Qed.

(** X4: when every model loads and predicts and one of them gives the same
    word twice in one sentence, [test] raises the ValueError of the reshape:
    a sentence with a repeated word cannot be tabulated. *)
Theorem repeated_pair_raises (ms : list string) (m : string) :
  Forall (fun m' => is_ok (predict m' sentences_list) = true) ms ->
  In m ms -> ~ NoDup (emitted_keys (P m)) ->
  test_with ms predict sentences_list
  = Raise (ValueError "Index contains duplicate entries, cannot reshape").
Proof.
  intros Hall Hm Hdup. unfold test_with.
  rewrite (collect_ok predict sentences_list ms [] Hall). cbn [app bind].
  assert (Hne : flat_map (fun m => frames_of m (P m)) ms <> []).
  { apply frames_nonempty. exists m. split; [assumption|].
    intros E. apply Hdup. rewrite E. constructor. }
  destruct (flat_map (fun m => frames_of m (P m)) ms) as [|f fs] eqn:Ef;
    [now contradiction Hne|].
  cbn [concat bind]. rewrite <- Ef, concat_flat_map.
  change (flat_map (fun a => List.concat (frames_of a (P a))) ms)
    with (long_table ms predict sentences_list).
  unfold pivot. fold entry.
  destruct (has_dup entry_eq_dec (map entry (long_table ms predict sentences_list)))
    eqn:E; [reflexivity|].
  exfalso. apply Hdup. apply (has_dup_false entry_eq_dec) in E.
  rewrite long_table_entries in E.
  apply (NoDup_flat_map_piece _ _ m) in E; [|assumption].
  now apply NoDup_map_inv in E.
Qed.

Lemma has_prediction_emits (pred : prediction) :
  has_prediction pred = true <-> exists k lab, emits pred k lab.
Proof.
  unfold has_prediction, emits. rewrite existsb_exists. split.
  - intros [p [Hp Hne]]. destruct p as [|[tok lab] p]; [discriminate|].
    apply (In_nth _ _ []) in Hp as [i [Hi E]].
    exists (tok, i), lab. cbn [fst snd]. rewrite E. now left.
  - intros [k [lab H]]. exists (nth (snd k) pred []). split.
    + apply nth_In. exact (emits_bound _ _ _ H).
    + destruct (nth (snd k) pred []); [contradiction | reflexivity].
Qed.

Lemma StronglySorted_filter {A : Type} (R : A -> A -> Prop) (f : A -> bool) (l : list A) :
  StronglySorted R l -> StronglySorted R (filter f l).
Proof.
  induction 1 as [|a l Hl IH Ha]; simpl; [constructor|].
  destruct (f a); [|assumption]. constructor; [assumption|].
  rewrite Forall_forall in Ha |- *. intros x Hx. apply Ha.
  now apply filter_In in Hx.
Qed.

(** X5: the label columns of a table [test_with] returns are in ascending
    order of model name, whatever the order of the list of models; for
    [test] they are bert, distilbert and roberta, in this order, without
    the models that predicted nothing. *)
Theorem columns_in_name_order :
  (forall ms df,
      test_with ms predict sentences_list = Ok df ->
      StronglySorted string_lt (columns df)) /\
  (forall df,
      test predict sentences_list = Ok df ->
      columns df = filter (fun m => has_prediction (P m)) models).
Proof.
  split.
  - intros ms df H. apply test_with_inv in H as [_ [_ ->]]. cbn [columns].
    apply sorted_columns, NoDup_nodup.
  - intros df H. unfold test in H. apply test_with_inv in H as [_ [_ ->]].
    cbn [columns]. set (L := long_table models predict sentences_list).
    apply (sorted_same_elements string_lt string_lt_irrefl
             (fun a b c => string_compare_lt_trans a b c)).
    + apply sorted_columns, NoDup_nodup.
    + apply StronglySorted_filter. repeat constructor.
    + intros m. rewrite filter_In, columns_mem, has_prediction_emits. split.
      * intros [r [Hr <-]]. apply long_table_In in Hr
          as [m [tok [lab [i [Hm [Hin ->]]]]]].
        split; [assumption|]. now exists (tok, i), lab.
      * intros [Hm [k [lab He]]].
        exists {| world := fst k; label := lab; sentence := snd k; model := m |}.
        split; [now apply long_table_emits | reflexivity].
Qed.

Lemma map_nth_seq {A B : Type} (g : A -> B) (d : A) (l : list A) :
  map (fun i => g (nth i l d)) (seq 0 (length l)) = map g l.
Proof.
  induction l as [|a l IH]; [reflexivity|].
  cbn [length seq map nth]. f_equal.
  rewrite <- seq_shift, map_map. exact IH.
Qed.

Lemma rows_of_length (m : string) (pred : prediction) :
  length (rows_of m pred) = pair_count pred.
Proof.
  unfold rows_of, frames_of, pair_count. rewrite length_concat, map_map.
  f_equal. rewrite <- (map_nth_seq (@length (string * string)) [] pred).
  apply map_ext. intros i. rewrite df_p_rows. apply length_map.
Qed.

Lemma long_table_length (ms : list string) :
  length (long_table ms predict sentences_list)
  = list_sum (map (fun m => pair_count (P m)) ms).
Proof.
  unfold long_table. induction ms as [|m ms IH]; [reflexivity|].
  cbn [flat_map map list_sum]. now rewrite length_app, rows_of_length, IH.
Qed.

(** X6: a table [test_with] returns has at most as many rows as the models
    gave (word, label) pairs in all, and for a single model exactly as many
    rows as the model gave pairs. *)
Theorem row_count (ms : list string) (df : DataFrame) :
  test_with ms predict sentences_list = Ok df ->
  length (rows df) <= list_sum (map (fun m => pair_count (P m)) ms) /\
  (forall m, ms = [m] -> length (rows df) = pair_count (P m)).
Proof.
  intros H. apply test_with_inv in H as [_ [Hnd ->]]. cbn [rows].
  set (L := long_table ms predict sentences_list) in *.
  assert (Hlen : length (sort by_sentence (map (wide_of L (columns_of L)) (index_of L)))
                 = length (nodup key_eq_dec (map entry_key L))).
  { rewrite (Permutation_length (sort_perm by_sentence _)), length_map.
    unfold index_of. apply Permutation_length, sort_perm. }
  rewrite Hlen. split.
  - rewrite <- long_table_length. fold L.
    rewrite <- (length_map entry_key L).
    apply NoDup_incl_length; [apply NoDup_nodup|].
    intros k Hk. now apply nodup_In in Hk.
  - intros m ->. rewrite nodup_fixed_point.
    + rewrite length_map. subst L. rewrite long_table_length.
      cbn [map list_sum]. apply Nat.add_0_r.
    + apply (NoDup_map_inv (fun k => (k, m))).
      rewrite map_map. rewrite (map_ext_in _ entry); [exact Hnd|].
      intros r Hr. apply long_table_In in Hr
        as [m0 [tok [lab [i [[<-|[]] [_ ->]]]]]]. reflexivity.
Qed.

End Table.

(** *** The order of the words of a sentence *)

Lemma nth_Forall2_perm {A : Type} (pr pr' : list (list A)) :
  Forall2 (@Permutation A) pr pr' ->
  forall i, Permutation (nth i pr []) (nth i pr' []).
Proof.
  induction 1 as [|p p' pr pr' Hp _ IH]; intros [|i]; cbn [nth]; auto.
Qed.

Lemma Permutation_concat_map {A B : Type} (f g : A -> list B) (l : list A) :
  (forall x, Permutation (f x) (g x)) ->
  Permutation (List.concat (map f l)) (List.concat (map g l)).
Proof.
  intros H. induction l as [|a l IH]; cbn [map List.concat]; [constructor|].
  now apply Permutation_app.
Qed.

Lemma rows_of_perm (m : string) (pr pr' : prediction) :
  Forall2 (@Permutation (string * string)) pr pr' ->
  Permutation (rows_of m pr) (rows_of m pr').
Proof.
  intros H. unfold rows_of, frames_of. rewrite <- (Forall2_length H).
  apply Permutation_concat_map. intros i. rewrite !df_p_rows.
  apply Permutation_map. now apply nth_Forall2_perm.
Qed.

Lemma frames_nonempty_inv (predict : string -> list string -> result prediction)
    (sentences_list : list string) (ms : list string) :
  flat_map (fun m => frames_of m (prediction_of predict sentences_list m)) ms <> [] ->
  exists m, In m ms /\ prediction_of predict sentences_list m <> [].
Proof.
  induction ms as [|m ms IH]; cbn [flat_map]; [intros H; now contradiction H|].
  intros H. destruct (prediction_of predict sentences_list m) as [|p pr] eqn:E.
  - cbn [frames_of length seq map app] in H. destruct (IH H) as [m' [Hm' Hp]].
    exists m'. split; [now right | assumption].
  - exists m. split; [now left|]. now rewrite E.
Qed.

(** X7: the order in which a model lists the words of a sentence does not
    matter: when two runs give, for every model and sentence, the same
    (word, label) pairs up to their order, they give the same table. *)
Theorem word_order_irrelevant
    (predict predict' : string -> list string -> result prediction)
    (sentences_list ms : list string) (df : DataFrame) :
  (forall m, In m ms ->
     exists pr pr',
       predict m sentences_list = Ok pr /\ predict' m sentences_list = Ok pr' /\
       Forall2 (@Permutation (string * string)) pr pr') ->
  test_with ms predict sentences_list = Ok df ->
  test_with ms predict' sentences_list = Ok df.
Proof.
  intros Hpp H. apply test_with_table in H as [Hall [Hne [Hnd ->]]].
  apply test_with_table.
  assert (HL : Permutation (long_table ms predict sentences_list)
                           (long_table ms predict' sentences_list)).
  { unfold long_table. clear Hall Hne Hnd.
    induction ms as [|m ms IH]; cbn [flat_map]; [constructor|].
    apply Permutation_app.
    - destruct (Hpp m (or_introl eq_refl)) as [pr [pr' [E [E' Hf]]]].
      unfold prediction_of. rewrite E, E'. now apply rows_of_perm.
    - apply IH. intros m' Hm'. apply Hpp. now right. }
  split; [|split; [|split]].
  - apply Forall_forall. intros m Hm.
    destruct (Hpp m Hm) as [pr [pr' [_ [E' _]]]]. now rewrite E'.
  - apply frames_nonempty. apply frames_nonempty_inv in Hne as [m [Hm Hp]].
    exists m. split; [assumption|].
    destruct (Hpp m Hm) as [pr [pr' [E [E' Hf]]]].
    unfold prediction_of in *. rewrite E in Hp. rewrite E'.
    intros ->. apply Hp. now inversion Hf.
  - apply (Permutation_NoDup (l := map entry (long_table ms predict sentences_list)));
      [now apply Permutation_map | assumption].
  - now apply table_perm.
Qed.

Lemma word_order_irrelevant_witness :
  test_with models predict_b_a ["b a"]
  = Ok {| columns := ["bert"; "distilbert"; "roberta"];
          rows := [ {| r_world := "a"; r_sentence := 0;
                       r_label := [VStr "O"; VStr "O"; VStr "O"] |};
                    {| r_world := "b"; r_sentence := 0;
                       r_label := [VStr "O"; VStr "O"; VStr "O"] |} ] |}.
Proof.
  apply (word_order_irrelevant predict_a_b predict_b_a ["b a"] models).
  - intros m _. exists [[("a", "O"); ("b", "O")]], [[("b", "O"); ("a", "O")]].
    split; [reflexivity|]. split; [reflexivity|].
    constructor; [apply perm_swap | constructor].
  - vm_compute. reflexivity.
Defined.

Lemma columns_in_name_order_witness :
  StronglySorted string_lt ["bert"; "roberta"].
Proof.
  apply (proj1 (columns_in_name_order predict_hi ["hi"])
               ["roberta"; "distilbert"; "bert"]
               {| columns := ["bert"; "roberta"];
                  rows := [ {| r_world := "hi"; r_sentence := 0;
                               r_label := [VStr "O"; VStr "B-PER"] |} ] |}).
  vm_compute. reflexivity.
Defined.

Lemma row_count_witness :
  exists df,
    test_with ["bert"] predict_two_sentences ["a"; "b"] = Ok df /\
    length (rows df) = pair_count (prediction_of predict_two_sentences ["a"; "b"] "bert").
Proof.
  eexists. split; [vm_compute; reflexivity|].
  match goal with
  | |- length (rows ?df) = _ =>
      assert (H : test_with ["bert"] predict_two_sentences ["a"; "b"] = Ok df)
        by (vm_compute; reflexivity)
  end.
  apply (proj2 (row_count predict_two_sentences ["a"; "b"] ["bert"] _ H) "bert").
  reflexivity.
Defined.

Lemma cells_are_labels_or_zero_witness :
  exists df r,
    test predict_one_silent ["hi"] = Ok df /\ In r (rows df) /\
    Forall (fun v => v <> NaN) (r_label r).
Proof.
  eexists. eexists. split; [vm_compute; reflexivity|]. split; [now left|].
  match goal with
  | |- Forall _ (r_label ?r) =>
      assert (H : test_with models predict_one_silent ["hi"]
                  = Ok {| columns := ["bert"; "roberta"]; rows := [r] |})
        by (vm_compute; reflexivity)
  end.
  apply (proj1 (cells_are_labels_or_zero predict_one_silent ["hi"] models _ H _
                  (or_introl eq_refl))).
Defined.

Lemma first_failure_wins_witness :
  test_with (["bert"] ++ "distilbert" :: ["roberta"])
            (fun m s => if String.eqb m "distilbert"
                        then Raise (ModelError "not found")
                        else predict_repeat m s)
            ["the the"]
  = Raise (Exception (ModelError "not found")).
Proof.
  apply first_failure_wins; [repeat constructor | reflexivity].
Defined.

Lemma repeated_pair_raises_witness :
  test_with models predict_repeat ["the the"]
  = Raise (ValueError "Index contains duplicate entries, cannot reshape").
Proof.
  apply (repeated_pair_raises predict_repeat ["the the"] models "bert");
    [repeat constructor | now left|].
  intros H. vm_compute in H. inversion H as [|? ? Hn _]. apply Hn. now left.
Defined.

Lemma model_order_irrelevant_witness :
  test_with ["roberta"; "bert"; "distilbert"] predict_hi ["hi"]
  = Ok {| columns := ["bert"; "roberta"];
          rows := [ {| r_world := "hi"; r_sentence := 0;
                       r_label := [VStr "O"; VStr "B-PER"] |} ] |}.
Proof.
  apply (model_order_irrelevant predict_hi ["hi"] models).
  - apply Permutation_sym, Permutation_cons_append.
  - vm_compute. reflexivity.
Defined.

End AggregatorMore.

(** ** More facts about the corpus *)

Module CorpusMore.

Import CorpusFacts.

(** *** The counter along the lines *)





(** *** Joining lists of lines *)

Lemma tag_lines_delimiters (n k : nat) : tag_lines is_delimiter n (repeat nl k) = [].
Proof.
  revert n. induction k as [|k IH]; intros n; [reflexivity|].
  cbn [repeat tag_lines]. unfold is_delimiter at 1. rewrite String.eqb_refl. apply IH.
Qed.

(** X9: delimiter lines at the end of a list of lines add nothing to what
    [mit_list2df] returns, and when the first of two lists has no delimiter
    line, the result for the two lists one after the other is the two results
    one after the other. *)
Theorem mit_list2df_app :
  (forall lines k, mit_list2df (lines ++ repeat nl k) = mit_list2df lines) /\
  (forall a b,
      delimiter_count a = 0 ->
      mit_list2df (a ++ b) = mit_list2df a ++ mit_list2df b).
Proof.
  split.
  - intros lines k. rewrite !mit_list2df_tag, tag_lines_app, tag_lines_delimiters.
    now rewrite List.app_nil_r.
  - intros a b H. rewrite !mit_list2df_tag, tag_lines_app, map_app.
    unfold delimiter_count in H. now rewrite H.
Qed.

Lemma mit_list2df_app_witness :
  mit_list2df ([ln "O a"; ln "O b"] ++ [nl; ln "O c"])
  = mit_list2df [ln "O a"; ln "O b"] ++ mit_list2df [nl; ln "O c"].
Proof. apply (proj2 mit_list2df_app). reflexivity. Defined.

(** *** Reading the lines back *)

Lemma untag_digits (d rest : string) :
  string_forall is_digit d = true -> untag (d ++ tab ++ rest) = rest.
Proof.
  induction d as [|c d IH]; intros H; cbn.
  - reflexivity.
  - cbn in H. apply andb_true_iff in H as [Hc Hd].
    assert (E : Ascii.eqb c TAB = false).
    { pose proof (digit_not_whitespace c Hc) as Hw. unfold is_whitespace in Hw.
      apply negb_true_iff, orb_false_iff in Hw. tauto. }
    rewrite E. now apply IH.
Qed.

(** X10: [mit_list2df] loses no content line and invents none: what follows
    the first tab of the lines it returns are the lines of the input other
    than the delimiter lines, in order, and the lines it returns and the
    delimiter lines together are as many as the lines of the input. *)
Theorem content_lines_read_back (lines : list string) :
  map untag (mit_list2df lines) = filter (fun l => negb (is_delimiter l)) lines /\
  length (mit_list2df lines) + delimiter_count lines = length lines.
Proof.
  rewrite mit_list2df_tag. unfold delimiter_count. generalize 0.
  induction lines as [|x lines IH]; intros n; [split; reflexivity|].
  cbn [tag_lines filter]. destruct (is_delimiter x); cbn [negb map length].
  - destruct (IH (S n)) as [H1 H2]. split; [assumption | lia].
  - destruct (IH n) as [H1 H2]. split; [|lia].
    f_equal; [|assumption]. unfold render. cbn [fst snd].
    apply untag_digits, str_digits.
Qed.

(** *** The errors of [prepare_data] *)

Lemma getitem_missing (files_dic : list (string * list string)) (key : string) :
  (forall v, ~ In (key, v) files_dic) -> getitem files_dic key = Raise (KeyError key).
Proof.
  induction files_dic as [|[k v] rest IH]; intros H; [reflexivity|].
  cbn [getitem]. destruct (String.eqb k key) eqn:E.
  - apply String.eqb_eq in E. subst k. exfalso. apply (H v). now left.
  - apply IH. intros v' Hv'. apply (H v'). now right.
Qed.

(** X11: [prepare_data] looks up and reads the training split first.
    Without an entry engtrain it raises KeyError('engtrain'); an error in
    reading the training lines is raised whatever the entry engtest is; and
    with the training split read, a missing entry engtest gives
    KeyError('engtest'). *)
Theorem prepare_data_errors (files_dic : list (string * list string)) :
  ((forall v, ~ In ("engtrain", v) files_dic) ->
   prepare_data files_dic = Raise (KeyError "engtrain")) /\
  (forall train_lines e,
      getitem files_dic "engtrain" = Ok train_lines ->
      load_split train_lines = Raise e ->
      prepare_data files_dic = Raise e) /\
  (forall train_lines df_train,
      getitem files_dic "engtrain" = Ok train_lines ->
      load_split train_lines = Ok df_train ->
      (forall v, ~ In ("engtest", v) files_dic) ->
      prepare_data files_dic = Raise (KeyError "engtest")).
Proof.
  unfold prepare_data. split; [|split].
  - intros H. now rewrite (getitem_missing _ _ H).
  - intros tr e Hg Hl. rewrite Hg. cbn [bind]. now rewrite Hl.
  - intros tr df Hg Hl H. rewrite Hg. cbn [bind]. rewrite Hl. cbn [bind].
    now rewrite (getitem_missing _ _ H).
Qed.

Lemma prepare_data_errors_witness :
  prepare_data [("engtrain", map ln ["O a"; "O New York"]); ("x", [])]
  = Raise (ParserError 3 4).
Proof.
  apply (proj1 (proj2 (prepare_data_errors _)) (map ln ["O a"; "O New York"]));
    vm_compute; reflexivity.
Defined.

(** *** Lines with three fields *)










(** *** The labels and the blanks *)








End CorpusMore.

(** ** Facts about the files of the corpus *)

Module FilesFacts.

(** *** [readlines] *)

Lemma readlines_nil (text : string) : readlines text = [] -> text = "".
Proof.
  destruct text as [|c rest]; [reflexivity|]. cbn [readlines].
  destruct (Ascii.eqb c LF); [discriminate|].
  destruct (readlines rest); discriminate.
Qed.

Lemma join_readlines (text : string) : join (readlines text) = text.
Proof.
  induction text as [|c rest IH]; [reflexivity|]. cbn [readlines].
  destruct (Ascii.eqb c LF) eqn:E.
  - apply Ascii.eqb_eq in E. subst c. rewrite join_cons, IH. reflexivity.
  - destruct (readlines rest) as [|line lines] eqn:Er.
    + apply readlines_nil in Er. now subst rest.
    + rewrite join_cons in *. cbn [String.append]. now rewrite IH.
Qed.

Lemma readlines_nonempty (text : string) : Forall (fun l => l <> "") (readlines text).
Proof.
  induction text as [|c rest IH]; [constructor|]. cbn [readlines].
  destruct (Ascii.eqb c LF).
  - constructor; [discriminate | assumption].
  - destruct (readlines rest) as [|line lines].
    + constructor; [discriminate | constructor].
    + inversion IH; subst. constructor; [discriminate | assumption].
Qed.

Lemma readlines_last (last : string) :
  no_line_feed last = true ->
  readlines last = if String.eqb last "" then [] else [last].
Proof.
  unfold no_line_feed. induction last as [|c last IH]; [reflexivity|].
  cbn [string_forall readlines]. intros H. apply andb_true_iff in H as [Hc Hl].
  apply negb_true_iff in Hc. rewrite Hc, (IH Hl).
  destruct last; reflexivity.
Qed.

Lemma readlines_line (b rest : string) :
  no_line_feed b = true ->
  readlines (b ++ String LF rest) = ln b :: readlines rest.
Proof.
  unfold no_line_feed, ln. induction b as [|c b IH]; intros H.
  - reflexivity.
  - cbn [string_forall] in H. apply andb_true_iff in H as [Hc Hb].
    apply negb_true_iff in Hc. cbn [String.append readlines].
    now rewrite Hc, (IH Hb).
Qed.

(** X16: [readlines] cuts a text after each line feed and loses nothing:
    the lines put together again are the text and no line is empty; and the
    text made of lines without line feed, each followed by a line feed, and
    of a last piece without line feed, is read back as these lines with
    their line feed, and the last piece when it is not empty. *)
Theorem readlines_round_trip :
  (forall text,
      join (readlines text) = text /\ Forall (fun l => l <> "") (readlines text)) /\
  (forall bodies last,
      Forall (fun b => no_line_feed b = true) bodies ->
      no_line_feed last = true ->
      readlines (join (map ln bodies) ++ last)
      = map ln bodies ++ (if String.eqb last "" then [] else [last])).
Proof.
  split.
  - intros text. split; [apply join_readlines | apply readlines_nonempty].
  - intros bodies last Hb Hl. induction Hb as [|b bodies Hb0 _ IH].
    + cbn [map app]. change (join []) with "". now apply readlines_last.
    + cbn [map]. rewrite join_cons. unfold ln at 1.
      rewrite !append_assoc. unfold nl at 1. cbn [String.append].
      rewrite (readlines_line b _ Hb0), IH. reflexivity.
Qed.

Lemma readlines_round_trip_witness :
  readlines (join (map ln ["O a"; ""; "B b"]) ++ "O c")
  = map ln ["O a"; ""; "B b"] ++ (if String.eqb "O c" "" then [] else ["O c"]).
Proof.
  apply (proj2 readlines_round_trip); [repeat constructor | reflexivity].
Defined.

(** *** The key of a file *)

Lemma rsplit_none (c : ascii) (b : string) :
  string_forall (fun x => negb (Ascii.eqb x c)) b = true -> rsplit c b = None.
Proof.
  induction b as [|x b IH]; [reflexivity|]. cbn [string_forall rsplit].
  intros H. apply andb_true_iff in H as [Hx Hb]. apply negb_true_iff in Hx.
  now rewrite (IH Hb), Hx.
Qed.

Lemma rsplit_last (c : ascii) (a b : string) :
  string_forall (fun x => negb (Ascii.eqb x c)) b = true ->
  rsplit c (a ++ String c b) = Some (a, b).
Proof.
  intros Hb. induction a as [|x a IH]; cbn [String.append rsplit].
  - now rewrite (rsplit_none c b Hb), Ascii.eqb_refl.
  - now rewrite IH.
Qed.

Lemma endswith_app (suffix a : string) : endswith suffix (a ++ suffix) = true.
Proof.
  induction a as [|x a IH]; cbn [String.append].
  - destruct suffix; cbn [endswith]; now rewrite String.eqb_refl.
  - cbn [endswith]. rewrite IH. apply orb_true_r.
Qed.

Lemma endswith_inv (suffix s : string) :
  endswith suffix s = true -> exists a, s = (a ++ suffix)%string.
Proof.
  induction s as [|x s IH]; cbn [endswith]; intros H.
  - rewrite orb_false_r in H. apply String.eqb_eq in H. subst suffix. now exists "".
  - apply orb_true_iff in H as [H|H].
    + apply String.eqb_eq in H. subst suffix. now exists "".
    + destruct (IH H) as [a ->]. now exists (String x a).
Qed.

Lemma path_join_name (f : string) :
  no_slash f = true -> path_join _mit_path f = (_mit_path ++ "/" ++ f)%string.
Proof.
  unfold path_join, startswith, no_slash. intros H.
  destruct f as [|c f]; [reflexivity|]. cbn [string_forall] in H.
  apply andb_true_iff in H as [Hc _]. apply negb_true_iff in Hc.
  cbn [String.prefix]. destruct (ascii_dec "/" c) as [<-|_]; [discriminate|].
  reflexivity.
Qed.

Lemma basename_join (f : string) :
  no_slash f = true -> basename (path_join _mit_path f) = f.
Proof.
  intros H. rewrite (path_join_name f H). unfold basename.
  change (_mit_path ++ "/" ++ f)%string with (_mit_path ++ String SLASH f)%string.
  now rewrite (rsplit_last SLASH _mit_path f H).
Qed.

(** The key of the file [stem ++ ".bio"] of the directory. *)
Lemma key_of_bio (stem : string) :
  no_slash stem = true ->
  key_of (path_join _mit_path (stem ++ ".bio"))
  = if only_dots stem then (stem ++ ".bio")%string else stem.
Proof.
  intros H.
  assert (Hf : no_slash (stem ++ ".bio") = true)
    by (unfold no_slash in *; now rewrite string_forall_app, H).
  unfold key_of. rewrite (basename_join _ Hf). unfold splitext.
  rewrite (rsplit_none SLASH _ Hf).
  change (stem ++ ".bio")%string with (stem ++ String DOT "bio")%string.
  rewrite (rsplit_last DOT stem "bio" eq_refl). fold (only_dots stem).
  now destruct (only_dots stem).
Qed.

Lemma no_dot_not_only_dots (stem : string) :
  no_dot stem = true -> stem <> "" -> only_dots stem = false.
Proof.
  destruct stem as [|c stem]; [intros _ H; now contradiction H|].
  unfold no_dot, only_dots. cbn [string_forall]. intros H _.
  apply andb_true_iff in H as [Hc _]. apply negb_true_iff in Hc. now rewrite Hc.
Qed.

(** Only the file [stem ++ ".bio"] has the key [stem], for a stem without
    dot. *)
Lemma key_of_unique (stem f : string) :
  no_dot stem = true -> no_slash f = true -> endswith ".bio" f = true ->
  key_of (path_join _mit_path f) = stem -> f = (stem ++ ".bio")%string.
Proof.
  intros Hstem Hf He Hk. destruct (endswith_inv _ _ He) as [a ->].
  assert (Ha : no_slash a = true).
  { unfold no_slash in *. rewrite string_forall_app in Hf.
    now apply andb_true_iff in Hf as [Hf _]. }
  rewrite (key_of_bio a Ha) in Hk. destruct (only_dots a); [|now subst a].
  exfalso. subst stem. unfold no_dot in Hstem.
  rewrite string_forall_app in Hstem. apply andb_true_iff in Hstem as [_ H].
  discriminate.
Qed.

(** *** The dictionary *)

Lemma getitem_update (d : list (string * list string)) (k k' : string) (v : list string) :
  getitem (update d k v) k' = if String.eqb k k' then Ok v else getitem d k'.
Proof.
  induction d as [|[k0 v0] d IH]; cbn [update getitem].
  - destruct (String.eqb k k'); reflexivity.
  - destruct (String.eqb k0 k) eqn:E0; cbn [getitem].
    + apply String.eqb_eq in E0. subst k0. now destruct (String.eqb k k').
    + rewrite IH. destruct (String.eqb k0 k') eqn:E1; [|reflexivity].
      apply String.eqb_eq in E1. subst k0. now rewrite String.eqb_sym, E0.
Qed.

Lemma update_keys (d : list (string * list string)) (k : string) (v : list string) :
  NoDup (map fst d) ->
  NoDup (map fst (update d k v)) /\
  (forall x, In x (map fst (update d k v)) <-> x = k \/ In x (map fst d)).
Proof.
  induction d as [|[k0 v0] d IH]; intros Hnd; cbn [update map fst].
  - split; [repeat constructor; auto|]. intros x. cbn. intuition.
  - inversion Hnd as [|? ? Hk0 Hd]; subst.
    destruct (String.eqb k0 k) eqn:E0; cbn [map fst].
    + apply String.eqb_eq in E0. subst k0. split; [assumption|].
      intros x. cbn. intuition.
    + apply String.eqb_neq in E0. destruct (IH Hd) as [Hn Hin]. split.
      * constructor; [|assumption]. rewrite Hin. intros [E|H]; [now subst|contradiction].
      * intros x. cbn. rewrite Hin. intuition.
Qed.

Section Loading.

Variable fs : filesystem.

Lemma load_files_total (paths : list string) : forall d,
  Forall (fun p => exists text, read_text fs p = inr text) paths ->
  exists d', load_files fs paths d = Loaded d'.
Proof.
  induction paths as [|p paths IH]; intros d H; cbn [load_files]; [eauto|].
  inversion H as [|? ? [text Hp] Hrest]; subst. rewrite Hp. now apply IH.
Qed.

Lemma load_files_other (k : string) (paths : list string) : forall d d',
  (forall p, In p paths -> key_of p <> k) ->
  load_files fs paths d = Loaded d' ->
  getitem d' k = getitem d k.
Proof.
  induction paths as [|p paths IH]; intros d d' Hk H; cbn [load_files] in H.
  - now injection H as <-.
  - destruct (read_text fs p) as [ex|text]; [discriminate|].
    rewrite (IH _ _ (fun q Hq => Hk q (or_intror Hq)) H), getitem_update.
    destruct (String.eqb (key_of p) k) eqn:E; [|reflexivity].
    apply String.eqb_eq in E. exfalso. apply (Hk p); [now left | assumption].
Qed.

Lemma load_files_lookup (k p0 text : string) (paths : list string) : forall d d',
  In p0 paths ->
  (forall p, In p paths -> key_of p = k -> p = p0) ->
  key_of p0 = k ->
  read_text fs p0 = inr text ->
  load_files fs paths d = Loaded d' ->
  getitem d' k = Ok (readlines text).
Proof.
  induction paths as [|p paths IH]; intros d d' Hin Hu Hk Hr H; [contradiction|].
  cbn [load_files] in H.
  destruct (read_text fs p) as [ex|text'] eqn:Ep; [discriminate|].
  destruct (in_dec string_dec p0 paths) as [Hin'|Hnin].
  - apply (IH _ _ Hin' (fun q Hq => Hu q (or_intror Hq)) Hk Hr H).
  - destruct Hin as [->|Hin]; [|contradiction].
    rewrite Ep in Hr. injection Hr as ->.
    rewrite (load_files_other k paths _ _ ) with (2 := H).
    + now rewrite getitem_update, Hk, String.eqb_refl.
    + intros q Hq Eq. apply Hnin. now rewrite <- (Hu q (or_intror Hq) Eq).
Qed.

Lemma load_files_keys (paths : list string) : forall d d',
  NoDup (map fst d) ->
  load_files fs paths d = Loaded d' ->
  NoDup (map fst d') /\
  (forall k, In k (map fst d') <-> In k (map fst d) \/ In k (map key_of paths)).
Proof.
  induction paths as [|p paths IH]; intros d d' Hnd H; cbn [load_files] in H.
  - injection H as <-. split; [assumption|]. intros k. cbn. tauto.
  - destruct (read_text fs p) as [ex|text]; [discriminate|].
    destruct (update_keys d (key_of p) (readlines text) Hnd) as [Hn Hin].
    destruct (IH _ _ Hn H) as [Hn' Hin']. split; [assumption|].
    intros k. rewrite Hin', Hin. cbn [map In]. intuition.
Qed.

Lemma load_files_fail (before after : list string) (p : string) (ex : os_error) :
  forall d,
  Forall (fun q => exists text, read_text fs q = inr text) before ->
  read_text fs p = inl ex ->
  load_files fs (before ++ p :: after) d = RaiseException ex.
Proof.
  induction before as [|q before IH]; intros d Hb Hp; cbn [app load_files].
  - now rewrite Hp.
  - inversion Hb as [|? ? [text Hq] Hrest]; subst. rewrite Hq. now apply IH.
Qed.

(** X17: [open_mit_files] fails as soon as a file it opens cannot be read:
    it raises the Exception around the error of the first regular file
    ending in .bio that cannot be read, whatever its name, and without it
    mattering that the files of the two splits can be read; a directory
    that is not there gives FileNotFoundError. *)
Theorem open_mit_files_errors :
  (forall msg,
      listdir fs _mit_path = inl (FileNotFoundError msg) ->
      open_mit_files fs = RaiseFileNotFoundError (FileNotFoundError msg)) /\
  (forall names before after f ex,
      listdir fs _mit_path = inr names ->
      filter (selected fs) names = before ++ f :: after ->
      Forall (fun g => exists text, read_text fs (path_join _mit_path g) = inr text)
             before ->
      read_text fs (path_join _mit_path f) = inl ex ->
      open_mit_files fs = RaiseException ex).
Proof.
  split.
  - intros msg H. unfold open_mit_files. now rewrite H.
  - intros names before after f ex Hl Hf Hb Hr. unfold open_mit_files.
    rewrite Hl. fold (selected fs). rewrite Hf, map_app. cbn [map].
    apply load_files_fail; [|assumption]. now apply Forall_map.
Qed.

Lemma selected_paths (names : list string) (p : string) :
  In p (map (path_join _mit_path) (filter (selected fs) names)) ->
  exists f, In f names /\ selected fs f = true /\ p = path_join _mit_path f.
Proof.
  intros H. apply in_map_iff in H as [f [<- Hf]]. apply filter_In in Hf as [Hin Hs].
  now exists f.
Qed.

Lemma open_mit_files_get (names : list string) (stem text : string) :
  listdir fs _mit_path = inr names ->
  Forall (fun f => no_slash f = true) names ->
  (forall f, In f names -> selected fs f = true ->
             exists t, read_text fs (path_join _mit_path f) = inr t) ->
  no_dot stem = true -> no_slash stem = true -> stem <> "" ->
  In (stem ++ ".bio")%string names ->
  isfile fs (path_join _mit_path (stem ++ ".bio")) = true ->
  read_text fs (path_join _mit_path (stem ++ ".bio")) = inr text ->
  exists files_dic,
    open_mit_files fs = Loaded files_dic /\
    getitem files_dic stem = Ok (readlines text).
Proof.
  intros Hl Hnames Hread Hdot Hslash Hne Hin Hfile Htext.
  unfold open_mit_files. rewrite Hl. fold (selected fs).
  set (paths := map (path_join _mit_path) (filter (selected fs) names)).
  assert (Hsel : selected fs (stem ++ ".bio") = true)
    by (unfold selected; now rewrite Hfile, endswith_app).
  destruct (load_files_total paths []) as [d Hd].
  { apply Forall_forall. intros p Hp.
    apply selected_paths in Hp as [f [Hf [Hs ->]]]. now apply Hread. }
  exists d. split; [assumption|].
  apply (load_files_lookup stem (path_join _mit_path (stem ++ ".bio")) text paths [] d).
  - apply in_map, filter_In. now split.
  - intros p Hp Hk. apply selected_paths in Hp as [f [Hf [Hs ->]]].
    f_equal. apply key_of_unique; try assumption.
    + rewrite Forall_forall in Hnames. now apply Hnames.
    + unfold selected in Hs. now apply andb_true_iff in Hs as [_ Hs].
  - rewrite (key_of_bio stem Hslash). now rewrite (no_dot_not_only_dots stem Hdot Hne).
  - assumption.
  - assumption.
Qed.

(** X18: when the directory can be listed and every regular file ending
    in .bio can be read, [open_mit_files] returns a dictionary, and for a
    name without dot (and not empty) the regular file with this name and
    the extension .bio is under this name in the dictionary, with its
    lines. *)
Theorem open_mit_files_lookup (names : list string) (stem text : string) :
  listdir fs _mit_path = inr names ->
  Forall (fun f => no_slash f = true) names ->
  (forall f, In f names -> selected fs f = true ->
             exists t, read_text fs (path_join _mit_path f) = inr t) ->
  no_dot stem = true -> no_slash stem = true -> stem <> "" ->
  In (stem ++ ".bio")%string names ->
  isfile fs (path_join _mit_path (stem ++ ".bio")) = true ->
  read_text fs (path_join _mit_path (stem ++ ".bio")) = inr text ->
  exists files_dic,
    open_mit_files fs = Loaded files_dic /\
    getitem files_dic stem = Ok (readlines text).
Proof. exact (open_mit_files_get names stem text). Qed.

(** X19: the dictionary [open_mit_files] returns has each key once, and
    its keys are the keys of the regular files of the directory whose name
    ends in .bio: no other file of the directory is opened or entered. *)
Theorem open_mit_files_keys (names : list string) (files_dic : list (string * list string)) :
  listdir fs _mit_path = inr names ->
  open_mit_files fs = Loaded files_dic ->
  NoDup (map fst files_dic) /\
  (forall k, In k (map fst files_dic) <->
             exists f, In f names /\ isfile fs (path_join _mit_path f) = true /\
                       endswith ".bio" f = true /\
                       key_of (path_join _mit_path f) = k).
Proof.
  intros Hl H. unfold open_mit_files in H. rewrite Hl in H. fold (selected fs) in H.
  destruct (load_files_keys _ [] files_dic (NoDup_nil _) H) as [Hn Hin].
  split; [assumption|]. intros k. rewrite Hin. cbn [map In]. split.
  - intros [[]|Hk]. apply in_map_iff in Hk as [p [<- Hp]].
    apply selected_paths in Hp as [f [Hf [Hs ->]]]. exists f.
    unfold selected in Hs. apply andb_true_iff in Hs as [H1 H2]. auto.
  - intros [f [Hf [H1 [H2 <-]]]]. right. apply in_map, in_map, filter_In.
    split; [assumption|]. unfold selected. now rewrite H1, H2.
Qed.

(** X20: when [check_mit_exists] answers yes, the two files are in the
    listing of the directory and every regular file ending in .bio can be
    read, [open_mit_files] returns a dictionary on which [prepare_data]
    finds both splits: it reads the lines of engtrain.bio, then those of
    engtest.bio, and raises no KeyError. *)
Theorem checked_files_are_found (names : list string) (train_text test_text : string) :
  check_mit_exists fs = true ->
  listdir fs _mit_path = inr names ->
  Forall (fun f => no_slash f = true) names ->
  In "engtrain.bio" names -> In "engtest.bio" names ->
  (forall f, In f names -> selected fs f = true ->
             exists t, read_text fs (path_join _mit_path f) = inr t) ->
  read_text fs (path_join _mit_path "engtrain.bio") = inr train_text ->
  read_text fs (path_join _mit_path "engtest.bio") = inr test_text ->
  exists files_dic,
    open_mit_files fs = Loaded files_dic /\
    prepare_data files_dic
    = (df_train <- load_split (readlines train_text) ;;
       df_test <- load_split (readlines test_text) ;;
       Ok (df_train, df_test, unique (map labels df_train))).
Proof.
  intros Hc Hl Hnames Htr Hte Hread Ht1 Ht2.
  unfold check_mit_exists in Hc. cbn [check_files] in Hc.
  destruct (isfile fs (path_join _mit_path "engtrain.bio")) eqn:E1; [|discriminate].
  destruct (isfile fs (path_join _mit_path "engtest.bio")) eqn:E2; [|discriminate].
  destruct (open_mit_files_get names "engtrain" train_text Hl Hnames Hread
              eq_refl eq_refl ltac:(discriminate) Htr E1 Ht1) as [d [Hd Hg1]].
  destruct (open_mit_files_get names "engtest" test_text Hl Hnames Hread
              eq_refl eq_refl ltac:(discriminate) Hte E2 Ht2) as [d' [Hd' Hg2]].
  rewrite Hd in Hd'. injection Hd' as <-.
  exists d. split; [assumption|].
  unfold prepare_data. rewrite Hg1. cbn [bind].
  destruct (load_split (readlines train_text)); cbn [bind]; [|reflexivity].
  now rewrite Hg2.
Qed.

End Loading.

Lemma open_mit_files_errors_witness :
  open_mit_files broken_fs = RaiseException (OtherError "Permission denied").
Proof.
  apply (proj2 (open_mit_files_errors broken_fs)
               ["engtest.bio"; "notes.bio"; "engtrain.bio"]
               ["engtest.bio"] ["engtrain.bio"] "notes.bio").
  - reflexivity.
  - reflexivity.
  - constructor; [|constructor]. eexists. reflexivity.
  - reflexivity.
Defined.

Lemma open_mit_files_lookup_witness :
  exists files_dic,
    open_mit_files example_fs = Loaded files_dic /\
    getitem files_dic "engtest" = Ok (readlines ("O d" ++ nl)).
Proof.
  apply (open_mit_files_lookup example_fs
           ["engtest.bio"; "readme.txt"; "engtrain.bio"; "old.bio"] "engtest").
  - reflexivity.
  - repeat constructor.
  - intros f [<-|[<-|[<-|[<-|[]]]]] H; try discriminate; eexists; reflexivity.
  - reflexivity.
  - reflexivity.
  - discriminate.
  - now left.
  - reflexivity.
  - reflexivity.
Defined.

Lemma open_mit_files_keys_witness :
  NoDup (map fst [("engtest", readlines ("O d" ++ nl));
                  ("engtrain",
                   readlines ("O a" ++ nl ++ "B-X b" ++ nl ++ nl ++ "O c" ++ nl))]).
Proof.
  apply (proj1 (open_mit_files_keys example_fs
                  ["engtest.bio"; "readme.txt"; "engtrain.bio"; "old.bio"] _
                  eq_refl eq_refl)).
Defined.

Lemma checked_files_are_found_witness :
  exists files_dic,
    open_mit_files example_fs = Loaded files_dic /\
    prepare_data files_dic
    = (df_train <- load_split
                     (readlines ("O a" ++ nl ++ "B-X b" ++ nl ++ nl ++ "O c" ++ nl)) ;;
       df_test <- load_split (readlines ("O d" ++ nl)) ;;
       Ok (df_train, df_test, unique (map labels df_train))).
Proof.
  apply (checked_files_are_found example_fs
           ["engtest.bio"; "readme.txt"; "engtrain.bio"; "old.bio"]).
  - reflexivity.
  - reflexivity.
  - repeat constructor.
  - right. right. now left.
  - now left.
  - intros f [<-|[<-|[<-|[<-|[]]]]] H; try discriminate; eexists; reflexivity.
  - reflexivity.
  - reflexivity.
Defined.

End FilesFacts.
